(** * mayak-logger: a shallow embedding of [logger.hpp] and its properties

    The header declares three process-wide objects ([additionalInfo],
    [logLevel], [logMutex]), two setters, the RAII class [Color], the gated
    routine [_log], six per-level wrappers and six macros.  Every function
    of the header is written below in a small monad of the five effects the
    header performs: reading and writing the two configuration globals,
    locking and unlocking [logMutex], and [std::cout << x].

    The monad is given two semantics: [exec], one thread running a call to
    completion, and [step], a pool of threads whose effects interleave, a
    thread writing one character at a time. *)

From Stdlib Require Import ZArith List String Ascii Bool Lia Permutation.
From Stdlib Require Import DecimalString DecimalZ.
Import ListNotations.

Local Open Scope Z_scope.
Local Open Scope string_scope.

(** ** Strings and characters *)

(** ["\033"], the escape character. *)
Definition ESC : string := String (ascii_of_nat 27) EmptyString.

(** ["\n"]. *)
Definition NL : string := String (ascii_of_nat 10) EmptyString.

(** [std::cout << n] for an [int n], with the stream in its default state
    (decimal, no grouping): an optional minus sign and the decimal digits. *)
Definition string_of_Z (n : Z) : string := NilZero.string_of_int (Z.to_int n).

(** ** The data of [namespace mayak::logger] *)

(** [enum LogLevel], in declaration order. *)
Inductive LogLevel : Type := TRACE | DEBUG | INFO | WARN | ERROR | FATAL.

(** The enumerator values the compiler assigns; [level < logLevel] in [_log]
    compares these. *)
Definition LogLevel_val (l : LogLevel) : Z :=
  match l with
  | TRACE => 0 | DEBUG => 1 | INFO => 2 | WARN => 3 | ERROR => 4 | FATAL => 5
  end.

(** The three globals of the header and the standard output stream. [logMutex]
    is [true] while some thread owns the mutex; [cout] is everything written
    to [std::cout] so far. *)
Record LoggerState : Type := mkState {
  additionalInfo : bool;
  logLevel : LogLevel;
  logMutex : bool;
  cout : string
}.

(** The state at program start: [additionalInfo = false], [logLevel = INFO],
    a default-constructed (free) mutex. [out] is what the process has already
    printed. *)
Definition initial_state (out : string) : LoggerState :=
  {| additionalInfo := false; logLevel := INFO; logMutex := false; cout := out |}.

(** ** The effects of the header *)

Inductive prog (A : Type) : Type :=
| Ret (a : A)
| GetLogLevel (k : LogLevel -> prog A)
| GetAdditionalInfo (k : bool -> prog A)
| PutLogLevel (l : LogLevel) (k : prog A)
| PutAdditionalInfo (b : bool) (k : prog A)
| Lock (k : prog A)
| Unlock (k : prog A)
| Write (s : string) (k : prog A).

Arguments Ret {A} a.
Arguments GetLogLevel {A} k.
Arguments GetAdditionalInfo {A} k.
Arguments PutLogLevel {A} l k.
Arguments PutAdditionalInfo {A} b k.
Arguments Lock {A} k.
Arguments Unlock {A} k.
Arguments Write {A} s k.

Fixpoint bind {A B : Type} (p : prog A) (f : A -> prog B) : prog B :=
  match p with
  | Ret a => f a
  | GetLogLevel k => GetLogLevel (fun l => bind (k l) f)
  | GetAdditionalInfo k => GetAdditionalInfo (fun b => bind (k b) f)
  | PutLogLevel l k => PutLogLevel l (bind k f)
  | PutAdditionalInfo b k => PutAdditionalInfo b (bind k f)
  | Lock k => Lock (bind k f)
  | Unlock k => Unlock (bind k f)
  | Write s k => Write s (bind k f)
  end.

Declare Scope prog_scope.
Delimit Scope prog_scope with prog.
Notation "x <- c ;; k" := (bind c (fun x => k))
  (at level 61, c at next level, right associativity) : prog_scope.
Notation "c ;; k" := (bind c (fun _ => k))
  (at level 61, right associativity) : prog_scope.
Local Open Scope prog_scope.

(** Reads of the two configuration globals. *)
Definition get_logLevel : prog LogLevel := GetLogLevel Ret.
Definition get_additionalInfo : prog bool := GetAdditionalInfo Ret.

(** [std::cout << s] for a string, and for an [int]. *)
Definition cout_put (s : string) : prog unit := Write s (Ret tt).
Definition cout_put_int (n : Z) : prog unit := Write (string_of_Z n) (Ret tt).

(** [std::lock_guard<std::mutex>]: the constructor locks, the destructor
    unlocks. *)
Definition lock_guard_ctor : prog unit := Lock (Ret tt).
Definition lock_guard_dtor : prog unit := Unlock (Ret tt).

(** ** The functions of the header *)

(** [void setLogLevel(const LogLevel& level) { logLevel = level; }] *)
Definition setLogLevel (level : LogLevel) : prog unit :=
  PutLogLevel level (Ret tt).

(** [void setAdditionalInfo(const bool& value) { additionalInfo = value; }] *)
Definition setAdditionalInfo (value : bool) : prog unit :=
  PutAdditionalInfo value (Ret tt).

(** [Color(const char* color) { std::cout << "\033[" << color << "m"; }] *)
Definition Color_ctor (color : string) : prog unit :=
  cout_put (ESC ++ "[") ;; cout_put color ;; cout_put "m".

(** [~Color() { std::cout << "\033[0m"; }] *)
Definition Color_dtor : prog unit := cout_put (ESC ++ "[0m").

(** [_log]. The two guards [lock] and [c] are destroyed when the body ends,
    in reverse order of construction: first [c], then [lock]. *)
Definition _log (level : LogLevel) (levelStr color msg file : string)
    (line : Z) : prog unit :=
  t <- get_logLevel ;;
  if (LogLevel_val level <? LogLevel_val t)%Z then Ret tt else
    lock_guard_ctor ;;
    Color_ctor color ;;
    cout_put "[" ;; cout_put levelStr ;; cout_put "] " ;; cout_put msg ;;
    b <- get_additionalInfo ;;
    (if b
     then cout_put " at " ;; cout_put file ;; cout_put ":" ;; cout_put_int line
     else Ret tt) ;;
    cout_put NL ;;
    Color_dtor ;;
    lock_guard_dtor.

Definition _trace (msg file : string) (line : Z) : prog unit :=
  _log TRACE "TRACE" "90" msg file line.

Definition _debug (msg file : string) (line : Z) : prog unit :=
  _log DEBUG "DEBUG" "36" msg file line.

Definition _info (msg file : string) (line : Z) : prog unit :=
  _log INFO "INFO" "37" msg file line.

Definition _warn (msg file : string) (line : Z) : prog unit :=
  _log WARN "WARN" "33" msg file line.

Definition _error (msg file : string) (line : Z) : prog unit :=
  _log ERROR "ERROR" "31" msg file line.

Definition _fatal (msg file : string) (line : Z) : prog unit :=
  _log FATAL "FATAL" "41;97" msg file line.

(** The public macros. [__FILE__] and [__LINE__] expand at the place of the
    macro call; they are the two last arguments here. *)
Definition MAYAK_LOG_TRACE (msg __FILE__ : string) (__LINE__ : Z) : prog unit :=
  _trace msg __FILE__ __LINE__.
Definition MAYAK_LOG_DEBUG (msg __FILE__ : string) (__LINE__ : Z) : prog unit :=
  _debug msg __FILE__ __LINE__.
Definition MAYAK_LOG_INFO (msg __FILE__ : string) (__LINE__ : Z) : prog unit :=
  _info msg __FILE__ __LINE__.
Definition MAYAK_LOG_WARN (msg __FILE__ : string) (__LINE__ : Z) : prog unit :=
  _warn msg __FILE__ __LINE__.
Definition MAYAK_LOG_ERROR (msg __FILE__ : string) (__LINE__ : Z) : prog unit :=
  _error msg __FILE__ __LINE__.
Definition MAYAK_LOG_FATAL (msg __FILE__ : string) (__LINE__ : Z) : prog unit :=
  _fatal msg __FILE__ __LINE__.

(** ** One thread: running a program to completion

    [None] is a call that does not return: locking a [std::mutex] that is
    already owned blocks for ever when no other thread runs, and unlocking
    one that is not owned has no defined behaviour. *)
Fixpoint exec {A : Type} (p : prog A) (st : LoggerState)
    : option (A * LoggerState) :=
  match p with
  | Ret a => Some (a, st)
  | GetLogLevel k => exec (k (logLevel st)) st
  | GetAdditionalInfo k => exec (k (additionalInfo st)) st
  | PutLogLevel l k =>
      exec k (mkState (additionalInfo st) l (logMutex st) (cout st))
  | PutAdditionalInfo b k =>
      exec k (mkState b (logLevel st) (logMutex st) (cout st))
  | Lock k =>
      if logMutex st then None
      else exec k (mkState (additionalInfo st) (logLevel st) true (cout st))
  | Unlock k =>
      if logMutex st
      then exec k (mkState (additionalInfo st) (logLevel st) false (cout st))
      else None
  | Write s k =>
      exec k (mkState (additionalInfo st) (logLevel st) (logMutex st)
                      (cout st ++ s))
  end.


(** A call has output when it returns and [std::cout] has grown by a
    non-empty text. *)
Definition produces_output (p : prog unit) (st : LoggerState) : Prop :=
  exists st' text,
    exec p st = Some (tt, st') /\ cout st' = cout st ++ text /\
    text <> EmptyString.

(** ** The output line, as the specification words it

    [<ESC>[<colorCode>m[<LABEL>] <message>[ at <file>:<line>]<newline><ESC>[0m],
    the bracketed site information being [suffix]. *)
Definition spec_site_info (file : string) (line : Z) : string :=
  " at " ++ file ++ ":" ++ string_of_Z line.

Definition spec_line (colorCode label message suffix : string) : string :=
  ESC ++ "[" ++ colorCode ++ "m" ++
  "[" ++ label ++ "] " ++ message ++ suffix ++ NL ++ ESC ++ "[0m".

(** Reading a decimal integer back, to say that a printed line number is the
    number passed in. *)
Definition Z_of_string (s : string) : option Z :=
  option_map Z.of_int (NilZero.int_of_string s).

(** The six entry points as one family, and the table of section 4.1 of the
    specification: severity and label of each entry point. *)
Inductive entry_point : Type :=
  logTrace | logDebug | logInfo | logWarn | logError | logFatal.

Definition entry (e : entry_point) : string -> string -> Z -> prog unit :=
  match e with
  | logTrace => _trace | logDebug => _debug | logInfo => _info
  | logWarn => _warn | logError => _error | logFatal => _fatal
  end.

Definition spec_severity (e : entry_point) : LogLevel :=
  match e with
  | logTrace => TRACE | logDebug => DEBUG | logInfo => INFO
  | logWarn => WARN | logError => ERROR | logFatal => FATAL
  end.

Definition spec_label (e : entry_point) : string :=
  match e with
  | logTrace => "TRACE" | logDebug => "DEBUG" | logInfo => "INFO"
  | logWarn => "WARN" | logError => "ERROR" | logFatal => "FATAL"
  end.

(** The ANSI codes the wrappers pass: bright black, cyan, white, yellow, red,
    and red background with bright white text. *)
Definition color_code (e : entry_point) : string :=
  match e with
  | logTrace => "90" | logDebug => "36" | logInfo => "37"
  | logWarn => "33" | logError => "31" | logFatal => "41;97"
  end.

(** ** Several threads

    Threads run calls of [_log] and nothing else: no setter is called and
    nothing else writes to [std::cout] while they run, so the only shared
    accesses outside the mutex are reads of [logLevel], and the program has
    no data race; its executions are the interleavings of the threads'
    actions.

    The arguments of one call of [_log]. *)
Record LogRecord : Type := mkRecord {
  severity : LogLevel;
  label : string;
  colorCode : string;
  message : string;
  sourceFile : string;
  sourceLine : Z
}.

Definition log_call (r : LogRecord) : prog unit :=
  _log (severity r) (label r) (colorCode r) (message r)
       (sourceFile r) (sourceLine r).

(** The body of a thread: the calls of [rs], one after the other. *)
Fixpoint calls (rs : list LogRecord) : prog unit :=
  match rs with
  | [] => Ret tt
  | r :: rs' => log_call r ;; calls rs'
  end.

(** One atomic action of a thread on the shared state. A thread at [Lock]
    can move only while the mutex is free; a write moves one character to the
    stream, so that two threads writing at once interleave character by
    character. [None]: the thread has finished, or cannot move now. *)
Definition tstep (p : prog unit) (st : LoggerState)
    : option (prog unit * LoggerState) :=
  match p with
  | Ret _ => None
  | GetLogLevel k => Some (k (logLevel st), st)
  | GetAdditionalInfo k => Some (k (additionalInfo st), st)
  | PutLogLevel l k =>
      Some (k, mkState (additionalInfo st) l (logMutex st) (cout st))
  | PutAdditionalInfo b k =>
      Some (k, mkState b (logLevel st) (logMutex st) (cout st))
  | Lock k =>
      if logMutex st then None
      else Some (k, mkState (additionalInfo st) (logLevel st) true (cout st))
  | Unlock k =>
      if logMutex st
      then Some (k, mkState (additionalInfo st) (logLevel st) false (cout st))
      else None
  | Write EmptyString k => Some (k, st)
  | Write (String c s) k =>
      Some (Write s k,
            mkState (additionalInfo st) (logLevel st) (logMutex st)
                    (cout st ++ String c EmptyString))
  end.

Record config : Type := mkConfig {
  threads : list (prog unit);
  shared : LoggerState
}.

Fixpoint update {A : Type} (i : nat) (x : A) (l : list A) : list A :=
  match l, i with
  | [], _ => []
  | _ :: l', O => x :: l'
  | y :: l', S i' => y :: update i' x l'
  end.

(** The thread of index [i] takes its next action. *)
Definition step (i : nat) (c : config) : option config :=
  match nth_error (threads c) i with
  | None => None
  | Some p =>
      match tstep p (shared c) with
      | None => None
      | Some (p', st') => Some (mkConfig (update i p' (threads c)) st')
      end
  end.

(** A schedule is the list of the threads that move, in order; [run] is
    [None] for a schedule that asks a thread to move when it cannot. *)
Fixpoint run (sched : list nat) (c : config) : option config :=
  match sched with
  | [] => Some c
  | i :: sched' =>
      match step i c with
      | None => None
      | Some c' => run sched' c'
      end
  end.

Definition is_Ret (p : prog unit) : bool :=
  match p with Ret _ => true | _ => false end.

(** Every thread has returned. *)
Definition finished (c : config) : bool := forallb is_Ret (threads c).

(** [jobs] gives the calls of each thread; all threads start together. *)
Definition spawn (jobs : list (list LogRecord)) (st : LoggerState) : config :=
  mkConfig (map calls jobs) st.

(** The line of a call, in the format of the specification. *)
Definition record_line (info : bool) (r : LogRecord) : string :=
  spec_line (colorCode r) (label r) (message r)
    (if info then spec_site_info (sourceFile r) (sourceLine r)
     else EmptyString).

Definition passes (t : LogLevel) (r : LogRecord) : bool :=
  negb (LogLevel_val (severity r) <? LogLevel_val t)%Z.

(** The lines thread body [calls rs] prints: those of the calls whose
    severity reaches the level. *)
Definition lines_of (t : LogLevel) (info : bool) (rs : list LogRecord)
    : list string :=
  map (record_line info) (filter (passes t) rs).

(** Concatenation of a list of texts. *)
Fixpoint cat (ls : list string) : string :=
  match ls with
  | [] => EmptyString
  | l :: ls' => l ++ cat ls'
  end.

(** The number of actions [p] still takes when the level is [t] and the flag
    is [info]. *)
Fixpoint cost (t : LogLevel) (info : bool) (p : prog unit) : nat :=
  match p with
  | Ret _ => O
  | GetLogLevel k => S (cost t info (k t))
  | GetAdditionalInfo k => S (cost t info (k info))
  | PutLogLevel l k => S (cost l info k)
  | PutAdditionalInfo b k => S (cost t b k)
  | Lock k => S (cost t info k)
  | Unlock k => S (cost t info k)
  | Write s k => S (String.length s + cost t info k)
  end.

Definition total_cost (t : LogLevel) (info : bool) (ps : list (prog unit))
    : nat :=
  list_sum (map (cost t info) ps).

(** ** What the threads of a pool are doing

    A thread inside the critical section of [_log]: [crit info q p r] says
    that [p] writes the text [r], reading the flag as [info] on the way,
    then unlocks the mutex and goes on as [q]. *)
Inductive crit (info : bool) (q : prog unit) : prog unit -> string -> Prop :=
| crit_unlock : crit info q (Unlock q) EmptyString
| crit_write (s : string) (k : prog unit) (r : string) :
    crit info q k r -> crit info q (Write s k) (s ++ r)
| crit_info (k : bool -> prog unit) (r : string) :
    crit info q (k info) r -> crit info q (GetAdditionalInfo k) r.

(** The account of one thread: [inside] is the part of its current line
    already on the stream when it owns the mutex, [owed] the lines it has
    still to print or to finish, the current one first. *)
Record ghost : Type := mkGhost {
  inside : option string;
  owed : list string
}.

(** A thread is between two calls, or has passed the level test and waits for the
    mutex, or is inside the critical section. *)
Inductive tinv (t : LogLevel) (info : bool) : prog unit -> ghost -> Prop :=
| tinv_idle (rs : list LogRecord) :
    tinv t info (calls rs) (mkGhost None (lines_of t info rs))
| tinv_gated (k : prog unit) (r : string) (rs : list LogRecord) :
    crit info (calls rs) k r ->
    tinv t info (Lock k) (mkGhost None (r :: lines_of t info rs))
| tinv_crit (p : prog unit) (a r : string) (rs : list LogRecord) :
    crit info (calls rs) p r ->
    tinv t info p (mkGhost (Some a) ((a ++ r) :: lines_of t info rs)).

Definition is_inside (g : ghost) : bool :=
  match inside g with Some _ => true | None => false end.

Definition printed (g : ghost) : string :=
  match inside g with Some a => a | None => EmptyString end.

(** The number of threads inside the critical section, and what they have
    printed of their current lines. *)
Definition holders (gs : list ghost) : nat := List.length (filter is_inside gs).
Definition partial (gs : list ghost) : string := cat (map printed gs).

(** The invariant of a pool of logging threads started at level [t], flag
    [info] and output [out0], with the lines [all] to print: the
    configuration does not change, the mutex is owned iff one thread is
    inside, the stream holds whole lines followed by the part printed by that
    thread, and the lines printed and owed are the lines of [all]. *)
Definition pool_inv (t : LogLevel) (info : bool) (out0 : string)
    (all : list string) (c : config) : Prop :=
  exists (gs : list ghost) (done : list string),
    Forall2 (tinv t info) (threads c) gs /\
    logLevel (shared c) = t /\ additionalInfo (shared c) = info /\
    holders gs = (if logMutex (shared c) then 1%nat else 0%nat) /\
    cout (shared c) = out0 ++ cat done ++ partial gs /\
    Permutation (done ++ flat_map owed gs) all.

(** ** Sessions of one thread

    What a client of the header can do: call a setter, or one of the six
    entry points with a message and the place of the call. *)
Inductive api_call : Type :=
| CallSetLogLevel (level : LogLevel)
| CallSetAdditionalInfo (value : bool)
| CallLog (e : entry_point) (msg file : string) (line : Z).

Definition api_prog (a : api_call) : prog unit :=
  match a with
  | CallSetLogLevel level => setLogLevel level
  | CallSetAdditionalInfo value => setAdditionalInfo value
  | CallLog e msg file line => entry e msg file line
  end.

(** The calls of [ops], one after the other. *)
Fixpoint session (ops : list api_call) : prog unit :=
  match ops with
  | [] => Ret tt
  | a :: ops' => api_prog a ;; session ops'
  end.

(** The level and the flag after a session: the argument of the last setter
    call, or the value before the session. *)
Fixpoint last_level (t : LogLevel) (ops : list api_call) : LogLevel :=
  match ops with
  | [] => t
  | CallSetLogLevel level :: ops' => last_level level ops'
  | _ :: ops' => last_level t ops'
  end.

Fixpoint last_flag (info : bool) (ops : list api_call) : bool :=
  match ops with
  | [] => info
  | CallSetAdditionalInfo value :: ops' => last_flag value ops'
  | _ :: ops' => last_flag info ops'
  end.

(** The text of a session that starts at level [t] with the flag [info]: each
    logging call contributes its line when its severity reaches the level in
    force at the call, with the site information when the flag in force at
    the call is on. *)
Fixpoint session_text (info : bool) (t : LogLevel) (ops : list api_call)
    : string :=
  match ops with
  | [] => EmptyString
  | CallSetLogLevel level :: ops' => session_text info level ops'
  | CallSetAdditionalInfo value :: ops' => session_text value t ops'
  | CallLog e msg file line :: ops' =>
      (if (LogLevel_val (spec_severity e) <? LogLevel_val t)%Z
       then EmptyString
       else spec_line (color_code e) (spec_label e) msg
              (if info then spec_site_info file line else EmptyString))
      ++ session_text info t ops'
  end.

(** The next action of the thread is one [_log] performs between taking and
    releasing the mutex: a write to the stream, the read of the flag, or the
    release. *)
Definition under_lock (p : prog unit) : bool :=
  match p with
  | Write _ _ | GetAdditionalInfo _ | Unlock _ => true
  | _ => false
  end.

(** ** The order of the lines of one thread

    [merged ls out]: [out] is an interleaving of the lists of [ls] that
    keeps the order inside each list. It is built from the end: the last
    element of [out] is the last element of one of the lists. *)
Inductive merged {A : Type} : list (list A) -> list A -> Prop :=
| merged_nil (n : nat) : merged (repeat [] n) []
| merged_snoc (l1 l2 : list (list A)) (xs out : list A) (x : A) :
    merged (l1 ++ xs :: l2)%list out ->
    merged (l1 ++ (xs ++ [x]) :: l2)%list (out ++ [x])%list.

(** The invariant of a pool with the order kept: beside its account, each
    thread has the list of the lines it has completed; completed and owed
    lines together are the lines of its job, in order, and the whole lines
    on the stream are an interleaving of the completed lists. *)
Definition ordered_inv (t : LogLevel) (info : bool) (out0 : string)
    (jobs : list (list LogRecord)) (c : config) : Prop :=
  exists (hs : list (list string * ghost)) (done : list string),
    Forall2 (fun p h => tinv t info p (snd h)) (threads c) hs /\
    Forall2 (fun h rs => (fst h ++ owed (snd h))%list = lines_of t info rs)
            hs jobs /\
    merged (map fst hs) done /\
    logLevel (shared c) = t /\ additionalInfo (shared c) = info /\
    holders (map snd hs) = (if logMutex (shared c) then 1%nat else 0%nat) /\
    cout (shared c) = out0 ++ cat done ++ partial (map snd hs).

(** What one call of [_log] leaves behind when it starts with the mutex free:
    nothing below the level, one line of the specified format otherwise. *)
Definition log_result (level : LogLevel) (levelStr color msg file : string)
    (line : Z) (st : LoggerState) : LoggerState :=
  if (LogLevel_val level <? LogLevel_val (logLevel st))%Z then st
  else mkState (additionalInfo st) (logLevel st) false
         (cout st ++
          spec_line color levelStr msg
            (if additionalInfo st then spec_site_info file line
             else EmptyString)).

(** * Properties *)

(** ** Strings *)

Lemma append_assoc (a b c : string) : (a ++ b) ++ c = a ++ (b ++ c).
Proof. induction a as [|x a IH]; simpl; [reflexivity | now rewrite IH]. Qed.

Lemma append_nil_r (a : string) : a ++ EmptyString = a.
Proof. induction a as [|x a IH]; simpl; [reflexivity | now rewrite IH]. Qed.

Lemma append_length (a b : string) :
  String.length (a ++ b) = (String.length a + String.length b)%nat.
Proof. induction a as [|x a IH]; simpl; [reflexivity | now rewrite IH]. Qed.

Lemma append_inv_head (a b c : string) : a ++ b = a ++ c -> b = c.
Proof. induction a as [|x a IH]; simpl; intros H; [exact H | injection H; auto]. Qed.

Lemma append_same_nil (a b : string) : a ++ b = a -> b = EmptyString.
Proof. intros H. apply (append_inv_head a). now rewrite append_nil_r. Qed.


Lemma append_nonempty_r (a b : string) : b <> EmptyString -> a ++ b <> a.
Proof. intros Hb H. apply Hb. exact (append_same_nil _ _ H). Qed.

Lemma spec_line_nonempty (c l m x : string) : spec_line c l m x <> EmptyString.
Proof. unfold spec_line. simpl. discriminate. Qed.

Lemma string_of_Z_inj_read (n : Z) : Z_of_string (string_of_Z n) = Some n.
Proof.
  unfold Z_of_string, string_of_Z.
  rewrite NilZero.isi.
  - simpl. now rewrite DecimalZ.of_to.
  - intros H. pose proof (DecimalZ.of_to n) as E. rewrite H in E.
    subst n. discriminate H.
  - intros H. pose proof (DecimalZ.of_to n) as E. rewrite H in E.
    subst n. discriminate H.
Qed.

(** ** The monad *)

Lemma exec_bind {A B : Type} (p : prog A) (f : A -> prog B) (st : LoggerState) :
  exec (bind p f) st =
  match exec p st with
  | Some (a, st') => exec (f a) st'
  | None => None
  end.
Proof.
  revert st. induction p as [a|k IH|k IH|l k IH|b k IH|k IH|k IH|s k IH];
    intros st; cbn [bind exec]; auto.
  - destruct (logMutex st); auto.
  - destruct (logMutex st); auto.
Qed.

Lemma exec_bind_ret (p : prog unit) (st : LoggerState) :
  exec (p ;; Ret tt) st = exec p st.
Proof.
  rewrite exec_bind. destruct (exec p st) as [[[] st']|]; reflexivity.
Qed.

(** The two semantics agree: an action a thread can take alone is the first
    thing [exec] does. *)
Lemma exec_tstep (p p' : prog unit) (st st' : LoggerState) :
  tstep p st = Some (p', st') -> exec p st = exec p' st'.
Proof.
  destruct p as [a|k|k|l k|b k|k|k|s k]; cbn [tstep exec]; intros H;
    try discriminate; try (injection H as <- <-; reflexivity).
  - destruct (logMutex st); [discriminate|]. injection H as <- <-. reflexivity.
  - destruct (logMutex st); [|discriminate]. injection H as <- <-. reflexivity.
  - destruct s as [|ch s]; injection H as <- <-; cbn [exec cout
      additionalInfo logLevel logMutex].
    + rewrite append_nil_r. destruct st; reflexivity.
    + rewrite append_assoc. reflexivity.
Qed.

(** ** The critical section *)

Lemma crit_text (info : bool) (q p : prog unit) (r r' : string) :
  crit info q p r -> r = r' -> crit info q p r'.
Proof. now intros H <-. Qed.

(** Run alone by the owner of the mutex, a critical section appends its text
    and frees the mutex. *)
Lemma exec_crit (info : bool) (q p : prog unit) (r : string) :
  crit info q p r ->
  forall st, additionalInfo st = info -> logMutex st = true ->
    exec p st =
    exec q (mkState (additionalInfo st) (logLevel st) false (cout st ++ r)).
Proof.
  induction 1 as [|s k r Hk IH|k r Hk IH]; intros st Hi Hm; cbn [exec].
  - rewrite Hm, append_nil_r. reflexivity.
  - rewrite IH by (cbn; assumption). cbn [additionalInfo logLevel cout].
    rewrite append_assoc. reflexivity.
  - rewrite <- (IH st Hi Hm). rewrite Hi. reflexivity.
Qed.

(** The first action of a call of [_log] followed by [q]: the level is read;
    below it the thread is at [q] already, otherwise it is at the lock, in
    front of a critical section that writes the line of the specified
    format. *)
Lemma tstep_log_bind (level : LogLevel) (levelStr color msg file : string)
    (line : Z) (q : prog unit) (st : LoggerState) :
  exists p',
    tstep (_log level levelStr color msg file line ;; q) st = Some (p', st) /\
    if (LogLevel_val level <? LogLevel_val (logLevel st))%Z
    then p' = q
    else exists k, p' = Lock k /\
           forall info, crit info q k
             (spec_line color levelStr msg
                (if info then spec_site_info file line else EmptyString)).
Proof.
  unfold _log, get_logLevel, lock_guard_ctor, lock_guard_dtor, Color_ctor,
    Color_dtor, cout_put, cout_put_int.
  cbn [bind tstep]. eexists. split; [reflexivity|].
  destruct (LogLevel_val level <? LogLevel_val (logLevel st))%Z; cbn [bind].
  - reflexivity.
  - eexists. split; [reflexivity|].
    intros info. destruct info.
    + eapply crit_text.
      * do 7 (apply crit_write). apply crit_info. cbn [bind].
        do 6 (apply crit_write). apply crit_unlock.
      * unfold spec_line, spec_site_info.
        rewrite !append_assoc, append_nil_r. reflexivity.
    + eapply crit_text.
      * do 7 (apply crit_write). apply crit_info. cbn [bind].
        do 2 (apply crit_write). apply crit_unlock.
      * unfold spec_line.
        rewrite !append_assoc, append_nil_r. reflexivity.
Qed.

(** ** One call of [_log] *)

Lemma exec_log level levelStr color msg file line st :
  logMutex st = false ->
  exec (_log level levelStr color msg file line) st =
  Some (tt, log_result level levelStr color msg file line st).
Proof.
  intros Hm. rewrite <- exec_bind_ret.
  destruct (tstep_log_bind level levelStr color msg file line (Ret tt) st)
    as (p' & Hs & Hshape).
  rewrite (exec_tstep _ _ _ _ Hs).
  unfold log_result.
  destruct (LogLevel_val level <? LogLevel_val (logLevel st))%Z.
  - subst p'. reflexivity.
  - destruct Hshape as (k & -> & Hk). cbn [exec]. rewrite Hm.
    rewrite (exec_crit _ _ _ _ (Hk (additionalInfo st))) by reflexivity.
    reflexivity.
Qed.

Lemma exec_log_gated level levelStr color msg file line st :
  (LogLevel_val level < LogLevel_val (logLevel st))%Z ->
  exec (_log level levelStr color msg file line) st = Some (tt, st).
Proof.
  intros H. apply Z.ltb_lt in H. unfold _log. simpl. now rewrite H.
Qed.

Lemma log_result_frame level levelStr color msg file line st :
  logMutex st = false ->
  let st' := log_result level levelStr color msg file line st in
  logMutex st' = false /\ logLevel st' = logLevel st /\
  additionalInfo st' = additionalInfo st.
Proof.
  intros Hm. unfold log_result.
  destruct (LogLevel_val level <? LogLevel_val (logLevel st))%Z; simpl; auto.
Qed.

Lemma produces_output_log level levelStr color msg file line st :
  logMutex st = false ->
  (produces_output (_log level levelStr color msg file line) st <->
   (LogLevel_val (logLevel st) <= LogLevel_val level)%Z).
Proof.
  intros Hm. unfold produces_output. rewrite (exec_log _ _ _ _ _ _ _ Hm).
  unfold log_result. split.
  - intros (st' & text & E & Hout & Hne).
    destruct (Z.ltb_spec (LogLevel_val level) (LogLevel_val (logLevel st)))
      as [Hlt|Hge]; [|lia].
    injection E as <-. symmetry in Hout.
    apply append_same_nil in Hout. contradiction.
  - intros Hge. apply Z.ltb_ge in Hge. rewrite Hge.
    eexists; eexists. split; [reflexivity|]. simpl. split; [reflexivity|].
    apply spec_line_nonempty.
Qed.

Lemma LogLevel_val_inj (a b : LogLevel) : LogLevel_val a = LogLevel_val b -> a = b.
Proof. destruct a, b; simpl; intros H; try reflexivity; discriminate H. Qed.

Lemma LogLevel_val_range (a : LogLevel) : (0 <= LogLevel_val a <= 5)%Z.
Proof. destruct a; simpl; lia. Qed.

(** ** The claims about one thread *)

(** C1. A call of [_log] at severity [s], the minimum level being [t], writes
    a line iff [s >= t]. Below the level it returns at once and leaves the
    whole state as it was, mutex included (it is not even looked at); a call
    with [s = t] has output, one with [s = t - 1] has none, and at level
    [FATAL] the calls with output are exactly the [FATAL] ones. *)
Theorem log_writes_iff_level_reached
    (s t : LogLevel) (levelStr color msg file : string) (line : Z)
    (st : LoggerState) :
  logLevel st = t ->
  let call := _log s levelStr color msg file line in
  ((LogLevel_val s < LogLevel_val t)%Z -> exec call st = Some (tt, st)) /\
  (logMutex st = false ->
     (produces_output call st <-> (LogLevel_val s >= LogLevel_val t)%Z) /\
     (s = t -> produces_output call st) /\
     (LogLevel_val s = LogLevel_val t - 1 -> ~ produces_output call st)%Z /\
     (t = FATAL -> (produces_output call st <-> s = FATAL))).
Proof.
  intros Ht call. split.
  - intros Hlt. apply exec_log_gated. now rewrite Ht.
  - intros Hm.
    pose proof (produces_output_log s levelStr color msg file line st Hm) as P.
    rewrite Ht in P. fold call in P.
    split; [|split; [|split]].
    + rewrite P. lia.
    + intros ->. apply P. lia.
    + intros E HP. apply P in HP. lia.
    + intros ->. rewrite P. split.
      * intros H. apply LogLevel_val_inj.
        pose proof (LogLevel_val_range s). simpl in *. lia.
      * intros ->. lia.
Qed.

Lemma log_writes_iff_level_reached_witness :
  let st := mkState false WARN false "x" in
  let call := _log WARN "WARN" "33" "low disk" "main.cpp" 7 in
  ((LogLevel_val WARN < LogLevel_val WARN)%Z -> exec call st = Some (tt, st)) /\
  (logMutex st = false ->
     (produces_output call st <-> (LogLevel_val WARN >= LogLevel_val WARN)%Z) /\
     (WARN = WARN -> produces_output call st) /\
     (LogLevel_val WARN = LogLevel_val WARN - 1 -> ~ produces_output call st)%Z /\
     (WARN = FATAL -> (produces_output call st <-> WARN = FATAL))).
Proof.
  exact (log_writes_iff_level_reached WARN WARN "WARN" "33" "low disk"
           "main.cpp" 7 (mkState false WARN false "x") eq_refl).
Defined.

(** C2. Every line [_log] emits is, byte for byte, the escape character,
    ['['], the colour code, ['m'], ['['], the label, ["] "], the message,
    then either nothing or [" at "], the file, [':'] and the line number,
    then a newline, then the reset sequence [ESC "[0m"]; the reset follows
    the newline whether or not the site information was printed. *)
Theorem emitted_line_structure
    (level : LogLevel) (levelStr color msg file : string) (line : Z)
    (st st' : LoggerState) :
  logMutex st = false ->
  exec (_log level levelStr color msg file line) st = Some (tt, st') ->
  cout st' <> cout st ->
  let site := if additionalInfo st
              then " at " ++ file ++ ":" ++ string_of_Z line
              else EmptyString in
  cout st' =
    cout st ++ ESC ++ "[" ++ color ++ "m" ++
    "[" ++ levelStr ++ "] " ++ msg ++ site ++ NL ++ ESC ++ "[0m" /\
  cout st' = cout st ++ spec_line color levelStr msg site /\
  logMutex st' = false.
Proof.
  intros Hm E Hout site. rewrite (exec_log _ _ _ _ _ _ _ Hm) in E.
  injection E as <-. unfold log_result in *.
  destruct (LogLevel_val level <? LogLevel_val (logLevel st))%Z.
  - now elim Hout.
  - simpl. repeat split; reflexivity.
Qed.

Lemma emitted_line_structure_witness :
  let st := mkState true TRACE false "$ " in
  let st' := mkState true TRACE false
               ("$ " ++ ESC ++ "[31m[ERROR] boom at main:42" ++ NL ++ ESC ++ "[0m") in
  logMutex st = false /\
  exec (_log ERROR "ERROR" "31" "boom" "main" 42) st = Some (tt, st') /\
  cout st' <> cout st /\
  cout st' = cout st ++ spec_line "31" "ERROR" "boom" " at main:42".
Proof.
  intros st st'.
  assert (Hm : logMutex st = false) by reflexivity.
  assert (He : exec (_log ERROR "ERROR" "31" "boom" "main" 42) st = Some (tt, st'))
    by reflexivity.
  assert (Hn : cout st' <> cout st) by discriminate.
  split; [exact Hm|]. split; [exact He|]. split; [exact Hn|].
  exact (proj1 (proj2 (emitted_line_structure ERROR "ERROR" "31" "boom" "main"
                         42 st st' Hm He Hn))).
Defined.

(** C3. With the flag off no call, at any severity, emits the site
    information: what is written does not depend on [file] and [line], and
    a call whose severity reaches the level writes its line with the newline
    right after the message. With the flag on, every call whose severity
    reaches the level writes its line with [" at "], the file and the line
    number given at the call, and the number can be read back from its
    digits. In both cases a line that is emitted is that line. *)
Theorem site_info_follows_flag
    (level : LogLevel) (levelStr color msg file : string) (line : Z)
    (st : LoggerState) :
  logMutex st = false ->
  let call := _log level levelStr color msg in
  (additionalInfo st = false ->
     (forall file' line', exec (call file line) st = exec (call file' line') st) /\
     ((LogLevel_val level >= LogLevel_val (logLevel st))%Z ->
      exec (call file line) st =
      Some (tt, mkState false (logLevel st) false
                  (cout st ++ ESC ++ "[" ++ color ++ "m" ++
                   "[" ++ levelStr ++ "] " ++ msg ++ NL ++ ESC ++ "[0m"))) /\
     (forall st', exec (call file line) st = Some (tt, st') ->
        cout st' <> cout st ->
        cout st' = cout st ++ ESC ++ "[" ++ color ++ "m" ++
                   "[" ++ levelStr ++ "] " ++ msg ++ NL ++ ESC ++ "[0m")) /\
  (additionalInfo st = true ->
     ((LogLevel_val level >= LogLevel_val (logLevel st))%Z ->
      exec (call file line) st =
      Some (tt, mkState true (logLevel st) false
                  (cout st ++ ESC ++ "[" ++ color ++ "m" ++
                   "[" ++ levelStr ++ "] " ++ msg ++
                   " at " ++ file ++ ":" ++ string_of_Z line ++
                   NL ++ ESC ++ "[0m"))) /\
     (forall st', exec (call file line) st = Some (tt, st') ->
        cout st' <> cout st ->
        cout st' = cout st ++ ESC ++ "[" ++ color ++ "m" ++
                   "[" ++ levelStr ++ "] " ++ msg ++
                   " at " ++ file ++ ":" ++ string_of_Z line ++
                   NL ++ ESC ++ "[0m" /\
        Z_of_string (string_of_Z line) = Some line)).
Proof.
  intros Hm call. unfold call. split; intros Hi.
  - split; [|split].
    + intros file' line'. rewrite !exec_log by exact Hm.
      unfold log_result. now rewrite Hi.
    + intros Hge. rewrite exec_log by exact Hm. unfold log_result.
      rewrite Hi.
      destruct (Z.ltb_spec (LogLevel_val level) (LogLevel_val (logLevel st)));
        [lia | reflexivity].
    + intros st' E Hout. rewrite exec_log in E by exact Hm.
      injection E as <-. unfold log_result in *. rewrite Hi in *.
      destruct (LogLevel_val level <? LogLevel_val (logLevel st))%Z;
        [now elim Hout | reflexivity].
  - assert (Htext :
      cout st ++ spec_line color levelStr msg (spec_site_info file line) =
      cout st ++ ESC ++ "[" ++ color ++ "m" ++
      "[" ++ levelStr ++ "] " ++ msg ++
      " at " ++ file ++ ":" ++ string_of_Z line ++ NL ++ ESC ++ "[0m").
    { unfold spec_line, spec_site_info. rewrite !append_assoc. reflexivity. }
    split.
    + intros Hge. rewrite exec_log by exact Hm. unfold log_result.
      rewrite Hi.
      destruct (Z.ltb_spec (LogLevel_val level) (LogLevel_val (logLevel st)));
        [lia | now rewrite Htext].
    + intros st' E Hout. rewrite exec_log in E by exact Hm.
      injection E as <-. unfold log_result in *. rewrite Hi in *.
      split; [|apply string_of_Z_inj_read].
      destruct (LogLevel_val level <? LogLevel_val (logLevel st))%Z;
        [now elim Hout|].
      cbn [cout]. exact Htext.
Qed.

Lemma site_info_follows_flag_witness :
  let on := mkState true TRACE false "$ " in
  let on' := mkState true TRACE false
               ("$ " ++ ESC ++ "[31m[ERROR] boom at main:42" ++ NL ++ ESC ++ "[0m") in
  let off := mkState false TRACE false "$ " in
  let off' := mkState false TRACE false
                ("$ " ++ ESC ++ "[31m[ERROR] boom" ++ NL ++ ESC ++ "[0m") in
  (logMutex on = false /\ additionalInfo on = true /\
   (LogLevel_val ERROR >= LogLevel_val (logLevel on))%Z /\
   exec (_log ERROR "ERROR" "31" "boom" "main" 42) on = Some (tt, on') /\
   cout on' <> cout on /\
   Z_of_string (string_of_Z 42) = Some 42) /\
  (logMutex off = false /\ additionalInfo off = false /\
   (LogLevel_val ERROR >= LogLevel_val (logLevel off))%Z /\
   exec (_log ERROR "ERROR" "31" "boom" "main" 42) off = Some (tt, off') /\
   exec (_log ERROR "ERROR" "31" "boom" "other" 7) off = Some (tt, off')).
Proof.
  intros on on' off off'.
  assert (Hge : (LogLevel_val ERROR >= LogLevel_val TRACE)%Z) by discriminate.
  assert (Hn : cout on' <> cout on) by discriminate.
  pose proof (site_info_follows_flag ERROR "ERROR" "31" "boom" "main" 42
                on eq_refl) as Ton.
  pose proof (site_info_follows_flag ERROR "ERROR" "31" "boom" "main" 42
                off eq_refl) as Toff.
  cbv zeta in Ton, Toff.
  destruct (proj2 Ton eq_refl) as (Eon & Gon).
  destruct (proj1 Toff eq_refl) as (Ioff & Eoff & _).
  split.
  - split; [reflexivity|]. split; [reflexivity|]. split; [exact Hge|].
    split; [exact (Eon Hge)|]. split; [exact Hn|].
    exact (proj2 (Gon on' (Eon Hge) Hn)).
  - split; [reflexivity|]. split; [reflexivity|]. split; [exact Hge|].
    split; [exact (Eoff Hge)|].
    rewrite <- (Ioff "other" 7%Z). exact (Eoff Hge).
Defined.

(** C4. Each of the six entry points is the gated routine [_log] called with
    its own severity, its label ["TRACE"], ["DEBUG"], ["INFO"], ["WARN"],
    ["ERROR"] or ["FATAL"], its own colour code, and the message, file and
    line of the caller unchanged; the macros pass [__FILE__] and [__LINE__]
    on in the same way. *)
Theorem entry_points_delegate (msg file : string) (line : Z) :
  _trace msg file line = _log TRACE "TRACE" "90" msg file line /\
  _debug msg file line = _log DEBUG "DEBUG" "36" msg file line /\
  _info msg file line = _log INFO "INFO" "37" msg file line /\
  _warn msg file line = _log WARN "WARN" "33" msg file line /\
  _error msg file line = _log ERROR "ERROR" "31" msg file line /\
  _fatal msg file line = _log FATAL "FATAL" "41;97" msg file line /\
  (forall e, entry e msg file line =
             _log (spec_severity e) (spec_label e) (color_code e) msg file line) /\
  MAYAK_LOG_TRACE msg file line = entry logTrace msg file line /\
  MAYAK_LOG_DEBUG msg file line = entry logDebug msg file line /\
  MAYAK_LOG_INFO msg file line = entry logInfo msg file line /\
  MAYAK_LOG_WARN msg file line = entry logWarn msg file line /\
  MAYAK_LOG_ERROR msg file line = entry logError msg file line /\
  MAYAK_LOG_FATAL msg file line = entry logFatal msg file line.
Proof.
  repeat split; try reflexivity.
  intros e. destruct e; reflexivity.
Qed.

(** C5. Before any setter is called the minimum level is [INFO] and the flag
    is off: a [TRACE] or [DEBUG] call then prints nothing, and an [INFO] call
    prints its line without the site information. *)
Theorem initial_state_defaults (out msg file : string) (line : Z) :
  let st := initial_state out in
  logLevel st = INFO /\ additionalInfo st = false /\ logMutex st = false /\
  exec (_trace msg file line) st = Some (tt, st) /\
  exec (_debug msg file line) st = Some (tt, st) /\
  ~ produces_output (_trace msg file line) st /\
  ~ produces_output (_debug msg file line) st /\
  produces_output (_info msg file line) st /\
  exec (_info msg file line) st =
    Some (tt, mkState false INFO false
                (out ++ ESC ++ "[37m[INFO] " ++ msg ++ NL ++ ESC ++ "[0m")).
Proof.
  intros st. unfold st.
  assert (Hm : logMutex (initial_state out) = false) by reflexivity.
  repeat split.
  - intros H. apply produces_output_log in H; [|exact Hm]. simpl in H. lia.
  - intros H. apply produces_output_log in H; [|exact Hm]. simpl in H. lia.
  - apply produces_output_log; [exact Hm|]. simpl. lia.
  - unfold _info. rewrite exec_log by exact Hm. reflexivity.
Qed.

(** C6. [setLogLevel] stores its argument in [logLevel] and does nothing
    else: it returns (no value), and the flag, the output and the mutex are
    as before, in every state. [setAdditionalInfo] does the same for the
    flag, leaving the level, the output and the mutex as before. *)
Theorem setters_assign_only (st : LoggerState) (level : LogLevel) (value : bool) :
  (exists st', exec (setLogLevel level) st = Some (tt, st') /\
     logLevel st' = level /\ additionalInfo st' = additionalInfo st /\
     cout st' = cout st /\ logMutex st' = logMutex st) /\
  (exists st', exec (setAdditionalInfo value) st = Some (tt, st') /\
     additionalInfo st' = value /\ logLevel st' = logLevel st /\
     cout st' = cout st /\ logMutex st' = logMutex st).
Proof.
  split; eexists; (split; [reflexivity|]); simpl; auto.
Qed.

(** C7. Calling [setLogLevel v] twice in a row leaves the same state and the
    same output as calling it once, and whatever runs next cannot tell the
    difference. *)
Theorem setLogLevel_idempotent (st : LoggerState) (v : LogLevel) :
  exec (setLogLevel v ;; setLogLevel v) st = exec (setLogLevel v) st /\
  forall (B : Type) (k : prog B),
    exec (setLogLevel v ;; setLogLevel v ;; k) st = exec (setLogLevel v ;; k) st.
Proof.
  split; [reflexivity|]. intros B k. reflexivity.
Qed.

(** C9. [_fatal] has no control flow of its own: from any state with the
    mutex free it returns, with the mutex free again and the configuration as
    it was, having printed its one line (a [FATAL] call passes every level);
    whatever follows the call runs from that state. It is [_log] at severity
    [FATAL], label ["FATAL"] and code ["41;97"], as each other entry point is
    [_log] at its own severity, label and code. *)
Theorem fatal_returns_normally (msg file : string) (line : Z) (st : LoggerState) :
  logMutex st = false ->
  exists st',
    exec (_fatal msg file line) st = Some (tt, st') /\
    logMutex st' = false /\ logLevel st' = logLevel st /\
    additionalInfo st' = additionalInfo st /\
    cout st' = cout st ++
      spec_line "41;97" "FATAL" msg
        (if additionalInfo st then spec_site_info file line else EmptyString) /\
    (forall (B : Type) (k : prog B),
       exec (_fatal msg file line ;; k) st = exec k st') /\
    (forall e, entry e msg file line =
               _log (spec_severity e) (spec_label e) (color_code e) msg file line) /\
    (forall e, exec (entry e msg file line) st =
               Some (tt, log_result (spec_severity e) (spec_label e)
                           (color_code e) msg file line st)).
Proof.
  intros Hm.
  exists (log_result FATAL "FATAL" "41;97" msg file line st).
  assert (E : exec (_fatal msg file line) st =
              Some (tt, log_result FATAL "FATAL" "41;97" msg file line st))
    by (unfold _fatal; now apply exec_log).
  destruct (log_result_frame FATAL "FATAL" "41;97" msg file line st Hm)
    as (F1 & F2 & F3).
  split; [exact E|]. split; [exact F1|]. split; [exact F2|]. split; [exact F3|].
  split.
  - unfold log_result.
    destruct (Z.ltb_spec (LogLevel_val FATAL) (LogLevel_val (logLevel st)))
      as [Hlt|Hge]; [|reflexivity].
    pose proof (LogLevel_val_range (logLevel st)). simpl in Hlt. lia.
  - split; [|split].
    + intros B k. rewrite exec_bind, E. reflexivity.
    + intros e. destruct e; reflexivity.
    + intros e. destruct e;
        unfold entry, _trace, _debug, _info, _warn, _error, _fatal;
        now apply exec_log.
Qed.

Lemma fatal_returns_normally_witness :
  let st := mkState false FATAL false "> " in
  logMutex st = false /\
  exists st',
    exec (_fatal "disk gone" "main.cpp" 9) st = Some (tt, st') /\
    logMutex st' = false /\
    cout st' = "> " ++ spec_line "41;97" "FATAL" "disk gone" EmptyString.
Proof.
  intros st. split; [reflexivity|].
  destruct (fatal_returns_normally "disk gone" "main.cpp" 9 st eq_refl)
    as (st' & E & Hm & _ & _ & Hc & _).
  exists st'. split; [exact E|]. split; [exact Hm|exact Hc].
Defined.

(** C10. Gating is monotone in the level: if a call at severity [s] has
    output when the minimum level is [t], the same call has output at every
    level [t' <= t]; in particular after [setLogLevel t'] in the same state. *)
Theorem gating_monotone
    (s : LogLevel) (levelStr color msg file : string) (line : Z)
    (st st' : LoggerState) :
  logMutex st = false -> logMutex st' = false ->
  (LogLevel_val (logLevel st') <= LogLevel_val (logLevel st))%Z ->
  produces_output (_log s levelStr color msg file line) st ->
  produces_output (_log s levelStr color msg file line) st' /\
  produces_output (setLogLevel (logLevel st') ;; _log s levelStr color msg file line) st.
Proof.
  intros Hm Hm' Hle HP.
  apply produces_output_log in HP; [|exact Hm].
  split.
  - apply produces_output_log; [exact Hm'|]. lia.
  - assert (HP' : produces_output (_log s levelStr color msg file line)
                    (mkState (additionalInfo st) (logLevel st') (logMutex st) (cout st))).
    { apply produces_output_log; [exact Hm|]. simpl. lia. }
    destruct HP' as (st1 & text & E & Hc & Hne).
    exists st1, text. split; [|split]; [exact E| exact Hc | exact Hne].
Qed.

Lemma gating_monotone_witness :
  let st := mkState false WARN false EmptyString in
  let st' := mkState false DEBUG false EmptyString in
  logMutex st = false /\ logMutex st' = false /\
  (LogLevel_val (logLevel st') <= LogLevel_val (logLevel st))%Z /\
  produces_output (_log ERROR "ERROR" "31" "boom" "main" 42) st /\
  produces_output (_log ERROR "ERROR" "31" "boom" "main" 42) st'.
Proof.
  intros st st'.
  assert (HP : produces_output (_log ERROR "ERROR" "31" "boom" "main" 42) st).
  { apply produces_output_log; [reflexivity|]. discriminate. }
  assert (Hle : (LogLevel_val (logLevel st') <= LogLevel_val (logLevel st))%Z)
    by discriminate.
  split; [reflexivity|]. split; [reflexivity|]. split; [exact Hle|].
  split; [exact HP|].
  exact (proj1 (gating_monotone ERROR "ERROR" "31" "boom" "main" 42 st st'
                  eq_refl eq_refl Hle HP)).
Defined.

(** ** Lists, texts and accounts *)

Lemma nth_error_update_split {A : Type} (l : list A) (i : nat) (x : A) :
  nth_error l i = Some x ->
  exists l1 l2, l = (l1 ++ x :: l2)%list /\
    forall y, update i y l = (l1 ++ y :: l2)%list.
Proof.
  revert i. induction l as [|z l IH]; intros [|i] H; simpl in H; try discriminate.
  - injection H as ->. exists [], l. split; reflexivity.
  - destruct (IH i H) as (l1 & l2 & -> & Hu).
    exists (z :: l1), l2. split; [reflexivity|].
    intros y. simpl. now rewrite Hu.
Qed.

Lemma nth_error_middle {A : Type} (l1 l2 : list A) (x : A) :
  nth_error (l1 ++ x :: l2)%list (List.length l1) = Some x.
Proof. induction l1 as [|z l1 IH]; simpl; auto. Qed.

Lemma cat_app (a b : list string) : cat (a ++ b)%list = cat a ++ cat b.
Proof.
  induction a as [|x a IH]; simpl; [reflexivity|].
  now rewrite IH, append_assoc.
Qed.

Lemma holders_middle (g1 g2 : list ghost) (g : ghost) :
  holders (g1 ++ g :: g2)%list =
  (holders g1 + (if is_inside g then 1 else 0) + holders g2)%nat.
Proof.
  unfold holders. rewrite filter_app, length_app. simpl.
  destruct (is_inside g); simpl; lia.
Qed.

Lemma partial_middle (g1 g2 : list ghost) (g : ghost) :
  partial (g1 ++ g :: g2)%list = partial g1 ++ printed g ++ partial g2.
Proof. unfold partial. rewrite map_app, cat_app. reflexivity. Qed.

Lemma holders_none_partial (gs : list ghost) :
  holders gs = 0%nat -> partial gs = EmptyString.
Proof.
  unfold holders, partial, printed, is_inside.
  induction gs as [|g gs IH]; simpl; [reflexivity|].
  destruct (inside g); simpl; [discriminate|exact IH].
Qed.

Lemma owed_middle (g1 g2 : list ghost) (g : ghost) :
  flat_map owed (g1 ++ g :: g2)%list =
  (flat_map owed g1 ++ owed g ++ flat_map owed g2)%list.
Proof. rewrite flat_map_app. reflexivity. Qed.

Lemma total_cost_middle t info (l1 l2 : list (prog unit)) (p : prog unit) :
  total_cost t info (l1 ++ p :: l2)%list =
  (total_cost t info l1 + cost t info p + total_cost t info l2)%nat.
Proof.
  unfold total_cost. rewrite map_app, list_sum_app. simpl. lia.
Qed.

Lemma filter_passes_all (t : LogLevel) (rs : list LogRecord) :
  Forall (fun r => (LogLevel_val (severity r) >= LogLevel_val t)%Z) rs ->
  filter (passes t) rs = rs.
Proof.
  induction 1 as [|r rs Hr _ IH]; simpl; [reflexivity|].
  unfold passes at 1.
  destruct (Z.ltb_spec (LogLevel_val (severity r)) (LogLevel_val t));
    [lia|]. simpl. now rewrite IH.
Qed.

(** ** One action of one thread *)

(** Reading the level at the start of a call: the thread goes to the lock of
    that call when the call passes, to the next call when it does not. *)
Lemma tstep_calls_cons (r : LogRecord) (rs : list LogRecord) (st : LoggerState) :
  exists p', tstep (calls (r :: rs)) st = Some (p', st) /\
    if passes (logLevel st) r
    then exists k, p' = Lock k /\
           forall info, crit info (calls rs) k (record_line info r)
    else p' = calls rs.
Proof.
  destruct (tstep_log_bind (severity r) (label r) (colorCode r) (message r)
              (sourceFile r) (sourceLine r) (calls rs) st) as (p' & Hs & Hshape).
  exists p'. split; [exact Hs|]. unfold passes, record_line.
  destruct (LogLevel_val (severity r) <? LogLevel_val (logLevel st))%Z;
    exact Hshape.
Qed.

(** Inside the critical section a thread either unlocks (its line is
    complete), or moves one character of its line to the stream, or takes a
    step that prints nothing. *)
Lemma crit_tstep (info : bool) (q p : prog unit) (r : string)
    (st : LoggerState) (p' : prog unit) (st' : LoggerState) :
  crit info q p r -> additionalInfo st = info ->
  tstep p st = Some (p', st') ->
  (p' = q /\ r = EmptyString /\ logMutex st = true /\
   st' = mkState (additionalInfo st) (logLevel st) false (cout st)) \/
  (exists ch r', r = String ch r' /\ crit info q p' r' /\
     st' = mkState (additionalInfo st) (logLevel st) (logMutex st)
             (cout st ++ String ch EmptyString)) \/
  (crit info q p' r /\ st' = st).
Proof.
  intros Hc Hi Hs. destruct Hc as [|s k r Hk|k r Hk]; simpl in Hs.
  - destruct (logMutex st) eqn:Hm; [|discriminate].
    injection Hs as <- <-. left. auto.
  - destruct s as [|ch s]; injection Hs as <- <-.
    + right; right. split; [exact Hk|reflexivity].
    + right; left. exists ch, (s ++ r). split; [reflexivity|].
      split; [now apply crit_write|reflexivity].
  - injection Hs as <- <-. right; right. rewrite Hi. split; [exact Hk|reflexivity].
Qed.

Lemma crit_can_step (info : bool) (q p : prog unit) (r : string)
    (st : LoggerState) :
  crit info q p r -> logMutex st = true ->
  exists p' st', tstep p st = Some (p', st').
Proof.
  intros Hc Hm. destruct Hc as [|s k r Hk|k r Hk]; simpl.
  - rewrite Hm. eauto.
  - destruct s; eauto.
  - eauto.
Qed.

Lemma crit_not_Ret (info : bool) (q p : prog unit) (r : string) :
  crit info q p r -> is_Ret p = false.
Proof. intros Hc. destruct Hc; reflexivity. Qed.

Lemma tstep_cost (p p' : prog unit) (st st' : LoggerState) :
  tstep p st = Some (p', st') ->
  cost (logLevel st) (additionalInfo st) p =
  S (cost (logLevel st') (additionalInfo st') p').
Proof.
  destruct p as [a|k|k|l k|b k|k|k|s k]; simpl; intros H; try discriminate;
    try (injection H as <- <-; reflexivity).
  - destruct (logMutex st); [discriminate|]. injection H as <- <-. reflexivity.
  - destruct (logMutex st); [|discriminate]. injection H as <- <-. reflexivity.
  - destruct s as [|ch s]; injection H as <- <-; reflexivity.
Qed.

(** ** The invariant of the pool *)

Section Pool.

Variables (t : LogLevel) (info : bool) (out0 : string) (all : list string).

Lemma tinv_finished (p : prog unit) (g : ghost) :
  tinv t info p g -> is_Ret p = true -> inside g = None /\ owed g = [].
Proof.
  intros H HR. destruct H as [rs|k r rs Hc|p a r rs Hc].
  - destruct rs; [auto | discriminate HR].
  - discriminate HR.
  - rewrite (crit_not_Ret _ _ _ _ Hc) in HR. discriminate HR.
Qed.

Lemma pool_inv_spawn (jobs : list (list LogRecord)) :
  all = flat_map (lines_of t info) jobs ->
  pool_inv t info out0 all (spawn jobs (mkState info t false out0)).
Proof.
  intros ->.
  exists (map (fun rs => mkGhost None (lines_of t info rs)) jobs), [].
  simpl. repeat split.
  - induction jobs as [|rs jobs IH]; simpl; constructor; [apply tinv_idle|exact IH].
  - induction jobs as [|rs jobs IH]; simpl; auto.
  - replace (partial _) with EmptyString; [now rewrite append_nil_r|].
    unfold partial. induction jobs as [|rs jobs IH]; simpl; auto.
  - replace (flat_map owed _) with (flat_map (lines_of t info) jobs);
      [apply Permutation_refl|].
    induction jobs as [|rs jobs IH]; simpl; [reflexivity|now rewrite IH].
Qed.

(** A step keeps the invariant and takes one unit of the remaining cost. *)
Lemma step_pool_inv (i : nat) (c c' : config) :
  pool_inv t info out0 all c -> step i c = Some c' ->
  pool_inv t info out0 all c' /\
  total_cost t info (threads c) = S (total_cost t info (threads c')).
Proof.
  intros (gs & done & HF & Ht & Hi & Hh & Hout & HP) Hs.
  unfold step in Hs.
  destruct (nth_error (threads c) i) as [p|] eqn:Hn; [|discriminate].
  destruct (tstep p (shared c)) as [[p' st']|] eqn:Hp; [|discriminate].
  injection Hs as <-.
  destruct (nth_error_update_split _ _ _ Hn) as (l1 & l2 & Hl & Hu).
  rewrite Hl in HF. apply Forall2_app_inv_l in HF.
  destruct HF as (g1 & gr & HF1 & HF2 & ->).
  inversion HF2 as [|p0 g l2' g2 Hg HF3]; subst p0 l2' gr. clear HF2.
  assert (Hcost : cost t info p = S (cost (logLevel st') (additionalInfo st') p')).
  { rewrite <- (tstep_cost _ _ _ _ Hp). now rewrite Ht, Hi. }
  simpl. rewrite (Hu p'), Hl, !total_cost_middle.
  rewrite holders_middle in Hh. rewrite partial_middle in Hout.
  rewrite owed_middle in HP.
  destruct Hg as [rs|k r rs Hc|p a r rs Hc].
  - (* between two calls *)
    destruct rs as [|r rs]; [discriminate Hp|].
    destruct (tstep_calls_cons r rs (shared c)) as (p1 & Hp1 & Hshape).
    rewrite Hp in Hp1. injection Hp1 as <- ->.
    rewrite Ht, Hi in Hcost.
    split; [|rewrite Hcost; lia].
    unfold lines_of in HP. simpl in HP. rewrite Ht in Hshape.
    destruct (passes t r).
    + destruct Hshape as (k & -> & Hk).
      exists (g1 ++ mkGhost None (record_line info r :: lines_of t info rs) :: g2)%list, done.
      simpl. split; [|split; [exact Ht|split; [exact Hi|split; [|split]]]].
      * apply Forall2_app; [exact HF1|]. constructor; [|exact HF3].
        apply tinv_gated. apply Hk.
      * rewrite holders_middle. exact Hh.
      * rewrite partial_middle. exact Hout.
      * rewrite owed_middle. exact HP.
    + subst p'.
      exists (g1 ++ mkGhost None (lines_of t info rs) :: g2)%list, done.
      simpl. split; [|split; [exact Ht|split; [exact Hi|split; [|split]]]].
      * apply Forall2_app; [exact HF1|]. constructor; [|exact HF3].
        apply tinv_idle.
      * rewrite holders_middle. exact Hh.
      * rewrite partial_middle. exact Hout.
      * rewrite owed_middle. exact HP.
  - (* waiting for the mutex *)
    simpl in Hp. destruct (logMutex (shared c)) eqn:Hm; [discriminate|].
    injection Hp as <- <-. cbn [logLevel additionalInfo] in Hcost. rewrite ?Ht, ?Hi in Hcost.
    split; [|rewrite Hcost; lia].
    exists (g1 ++ mkGhost (Some EmptyString) ((EmptyString ++ r)%string :: lines_of t info rs) :: g2)%list, done.
    simpl. split; [|split; [exact Ht|split; [exact Hi|split; [|split]]]].
    + apply Forall2_app; [exact HF1|]. constructor; [|exact HF3].
      apply (tinv_crit t info k EmptyString r rs Hc).
    + rewrite holders_middle. unfold is_inside in *. simpl in *. lia.
    + rewrite partial_middle. exact Hout.
    + rewrite owed_middle. exact HP.
  - (* inside the critical section *)
    unfold is_inside in Hh. simpl in Hh. unfold printed in Hout. simpl in Hout.
    assert (Hm : logMutex (shared c) = true).
    { destruct (logMutex (shared c)); [reflexivity|lia]. }
    rewrite Hm in Hh.
    assert (H1 : holders g1 = 0%nat) by lia.
    assert (H2 : holders g2 = 0%nat) by lia.
    rewrite (holders_none_partial _ H1), (holders_none_partial _ H2) in Hout.
    simpl in Hout. rewrite append_nil_r in Hout.
    destruct (crit_tstep _ _ _ _ _ _ _ Hc Hi Hp)
      as [(-> & -> & _ & ->)|[(ch & r' & -> & Hc' & ->)|(Hc' & ->)]].
    + (* unlock: the line is complete *)
      cbn [logLevel additionalInfo] in Hcost. rewrite ?Ht, ?Hi in Hcost. split; [|rewrite Hcost; lia].
      rewrite append_nil_r in HP.
      exists (g1 ++ mkGhost None (lines_of t info rs) :: g2)%list, (done ++ [a])%list.
      simpl. split; [|split; [exact Ht|split; [exact Hi|split; [|split]]]].
      * apply Forall2_app; [exact HF1|]. constructor; [|exact HF3].
        apply tinv_idle.
      * rewrite holders_middle. unfold is_inside. simpl. lia.
      * rewrite partial_middle, (holders_none_partial _ H1),
          (holders_none_partial _ H2). unfold printed. simpl.
        rewrite cat_app. simpl. rewrite Hout, !append_nil_r. reflexivity.
      * rewrite owed_middle. simpl.
        rewrite <- HP. rewrite <- !app_assoc. apply Permutation_app_head.
        simpl. apply Permutation_middle.
    + (* one character *)
      cbn [logLevel additionalInfo] in Hcost. rewrite ?Ht, ?Hi in Hcost. split; [|rewrite Hcost; lia].
      exists (g1 ++ mkGhost (Some (a ++ String ch EmptyString)%string)
                     (((a ++ String ch EmptyString) ++ r')%string :: lines_of t info rs) :: g2)%list,
             done.
      simpl. split; [|split; [exact Ht|split; [exact Hi|split; [|split]]]].
      * apply Forall2_app; [exact HF1|]. constructor; [|exact HF3].
        apply tinv_crit. exact Hc'.
      * rewrite holders_middle. unfold is_inside. simpl. rewrite Hm. lia.
      * rewrite partial_middle, (holders_none_partial _ H1),
          (holders_none_partial _ H2). unfold printed. simpl.
        rewrite Hout, !append_nil_r, !append_assoc. reflexivity.
      * rewrite owed_middle. simpl. rewrite append_assoc. simpl. exact HP.
    + (* a step that prints nothing *)
      rewrite Ht, Hi in Hcost. split; [|rewrite Hcost; lia].
      exists (g1 ++ mkGhost (Some a) ((a ++ r)%string :: lines_of t info rs) :: g2)%list, done.
      simpl. split; [|split; [exact Ht|split; [exact Hi|split; [|split]]]].
      * apply Forall2_app; [exact HF1|]. constructor; [|exact HF3].
        apply tinv_crit. exact Hc'.
      * rewrite holders_middle. unfold is_inside. simpl. rewrite Hm. lia.
      * rewrite partial_middle, (holders_none_partial _ H1),
          (holders_none_partial _ H2). unfold printed. simpl.
        rewrite Hout, !append_nil_r. reflexivity.
      * rewrite owed_middle. simpl. exact HP.
Qed.

Lemma run_pool_inv (sched : list nat) (c c' : config) :
  pool_inv t info out0 all c -> run sched c = Some c' ->
  pool_inv t info out0 all c' /\
  total_cost t info (threads c) =
  (List.length sched + total_cost t info (threads c'))%nat.
Proof.
  revert c. induction sched as [|i sched IH]; intros c Hinv Hr; simpl in Hr.
  - injection Hr as <-. split; [exact Hinv|reflexivity].
  - destruct (step i c) as [c1|] eqn:Hs; [|discriminate].
    destruct (step_pool_inv i c c1 Hinv Hs) as (Hinv1 & Hc1).
    destruct (IH c1 Hinv1 Hr) as (Hinv' & Hc'). split; [exact Hinv'|].
    simpl. lia.
Qed.

Lemma forallb_false_split {A : Type} (f : A -> bool) (l : list A) :
  forallb f l = false ->
  exists l1 x l2, l = (l1 ++ x :: l2)%list /\ f x = false.
Proof.
  induction l as [|y l IH]; simpl; [discriminate|].
  destruct (f y) eqn:Hy; simpl.
  - intros H. destruct (IH H) as (l1 & x & l2 & -> & Hx).
    exists (y :: l1), x, l2. split; [reflexivity|exact Hx].
  - intros _. exists [], y, l. split; [reflexivity|exact Hy].
Qed.

Lemma holders_pos_split (gs : list ghost) :
  holders gs <> 0%nat ->
  exists g1 g g2, gs = (g1 ++ g :: g2)%list /\ is_inside g = true.
Proof.
  unfold holders. induction gs as [|y gs IH]; simpl; [congruence|].
  destruct (is_inside y) eqn:Hy.
  - intros _. exists [], y, gs. split; [reflexivity|exact Hy].
  - intros H. destruct (IH H) as (g1 & g & g2 & -> & Hg).
    exists (y :: g1), g, g2. split; [reflexivity|exact Hg].
Qed.

Lemma tinv_inside (p : prog unit) (g : ghost) :
  tinv t info p g -> is_inside g = true ->
  exists a r q, inside g = Some a /\ In (a ++ r) (owed g) /\ crit info q p r.
Proof.
  intros H Hg. destruct H as [rs|k r rs Hc|p a r rs Hc]; try discriminate Hg.
  exists a, r, (calls rs). simpl. auto.
Qed.

(** While the pool is not finished, some thread can move: there is no
    deadlock. *)
Lemma pool_progress (c : config) :
  pool_inv t info out0 all c -> finished c = false ->
  exists i c', step i c = Some c'.
Proof.
  intros (gs & done & HF & Ht & Hi & Hh & Hout & HP) Hfin. clear Ht Hi.
  assert (Hstep : forall l1 p l2 p' st',
             threads c = (l1 ++ p :: l2)%list ->
             tstep p (shared c) = Some (p', st') ->
             exists i c', step i c = Some c').
  { intros l1 p l2 p' st' Hl Hp. exists (List.length l1). unfold step.
    rewrite Hl, nth_error_middle, Hp. eauto. }
  destruct (logMutex (shared c)) eqn:Hm.
  - destruct (holders_pos_split gs) as (g1 & g & g2 & -> & Hg); [lia|].
    apply Forall2_app_inv_r in HF. destruct HF as (l1 & lr & HF1 & HF2 & Hl).
    inversion HF2 as [|p g0 l2 g2' Hp HF3]; subst.
    destruct (tinv_inside p g Hp Hg) as (a & r & q & _ & _ & Hc).
    destruct (crit_can_step _ _ _ _ (shared c) Hc Hm) as (p' & st' & Hs).
    exact (Hstep _ _ _ _ _ Hl Hs).
  - unfold finished in Hfin.
    destruct (forallb_false_split _ _ Hfin) as (l1 & p & l2 & Hl & Hp).
    rewrite Hl in HF. apply Forall2_app_inv_l in HF.
    destruct HF as (g1 & gr & HF1 & HF2 & ->).
    inversion HF2 as [|p0 g l2' g2 Hg HF3]; subst.
    rewrite holders_middle in Hh.
    destruct Hg as [rs|k r rs Hc|p a r rs Hc].
    + destruct rs as [|r rs]; [discriminate Hp|].
      destruct (tstep_calls_cons r rs (shared c)) as (p1 & Hp1 & _).
      exact (Hstep _ _ _ _ _ Hl Hp1).
    + apply (Hstep l1 (Lock k) l2 k
               (mkState (additionalInfo (shared c)) (logLevel (shared c)) true
                        (cout (shared c))) Hl).
      simpl. now rewrite Hm.
    + unfold is_inside in Hh. simpl in Hh. lia.
Qed.

(** From every state of the pool some schedule runs all threads to their
    end. *)
Lemma pool_completes (c : config) :
  pool_inv t info out0 all c ->
  exists sched c', run sched c = Some c' /\ finished c' = true.
Proof.
  remember (total_cost t info (threads c)) as n eqn:Hn.
  revert c Hn. induction n as [|n IH]; intros c Hn Hinv.
  - destruct (finished c) eqn:Hfin.
    + exists [], c. split; [reflexivity|exact Hfin].
    + destruct (pool_progress c Hinv Hfin) as (i & c1 & Hs).
      destruct (step_pool_inv i c c1 Hinv Hs) as (_ & Hc). lia.
  - destruct (finished c) eqn:Hfin.
    + exists [], c. split; [reflexivity|exact Hfin].
    + destruct (pool_progress c Hinv Hfin) as (i & c1 & Hs).
      destruct (step_pool_inv i c c1 Hinv Hs) as (Hinv1 & Hc).
      destruct (IH c1) as (sched & c' & Hr & Hf); [lia|exact Hinv1|].
      exists (i :: sched), c'. simpl. rewrite Hs. split; [exact Hr|exact Hf].
Qed.

(** What is on the stream at any moment: whole lines, then at most the
    beginning of one line that is still owed. *)
Lemma pool_observed (c : config) :
  pool_inv t info out0 all c ->
  exists done others part rest,
    cout (shared c) = out0 ++ cat done ++ part /\
    Permutation (done ++ others) all /\
    (part = EmptyString \/ In (part ++ rest) others).
Proof.
  intros (gs & done & HF & Ht & Hi & Hh & Hout & HP). clear Ht Hi.
  exists done, (flat_map owed gs), (partial gs).
  destruct (logMutex (shared c)) eqn:Hm.
  - destruct (holders_pos_split gs) as (g1 & g & g2 & -> & Hg); [lia|].
    apply Forall2_app_inv_r in HF. destruct HF as (l1 & lr & HF1 & HF2 & Hl).
    inversion HF2 as [|p g0 l2 g2' Hp HF3]; subst.
    destruct (tinv_inside p g Hp Hg) as (a & r & q & Ha & Hin & _).
    rewrite holders_middle, Hg in Hh.
    exists r. split; [exact Hout|]. split; [exact HP|]. right.
    rewrite partial_middle, (holders_none_partial g1), (holders_none_partial g2)
      by lia.
    unfold printed. rewrite Ha. simpl. rewrite append_nil_r.
    rewrite owed_middle. apply in_or_app. right. apply in_or_app. left. exact Hin.
  - exists EmptyString. split; [exact Hout|]. split; [exact HP|]. left.
    now apply holders_none_partial.
Qed.

Lemma tinv_all_finished (ps : list (prog unit)) (gs : list ghost) :
  Forall2 (tinv t info) ps gs -> forallb is_Ret ps = true ->
  holders gs = 0%nat /\ flat_map owed gs = [].
Proof.
  induction 1 as [|p g ps gs Hp _ IH]; simpl; [auto|].
  intros H. apply andb_prop in H. destruct H as (Hr & Hrs).
  destruct (tinv_finished p g Hp Hr) as (Hin & How).
  destruct (IH Hrs) as (Hh & Ho).
  unfold holders in *. simpl. unfold is_inside at 1. rewrite Hin, How.
  simpl. auto.
Qed.

(** When every thread has returned, the stream holds the lines of [all], each
    whole, in some order, and the mutex is free. *)
Lemma pool_finished (c : config) :
  pool_inv t info out0 all c -> finished c = true ->
  exists ls, Permutation ls all /\ cout (shared c) = out0 ++ cat ls /\
             logMutex (shared c) = false.
Proof.
  intros (gs & done & HF & Ht & Hi & Hh & Hout & HP) Hfin.
  destruct (tinv_all_finished _ _ HF Hfin) as (H0 & Ho).
  exists done. rewrite Ho, app_nil_r in HP. split; [exact HP|].
  rewrite (holders_none_partial _ H0), append_nil_r in Hout.
  split; [exact Hout|].
  rewrite H0 in Hh. destruct (logMutex (shared c)); [discriminate|reflexivity].
Qed.

End Pool.

Lemma lines_of_all_pass (t : LogLevel) (info : bool)
    (jobs : list (list LogRecord)) :
  Forall (fun rs =>
            Forall (fun r => (LogLevel_val (severity r) >= LogLevel_val t)%Z) rs)
         jobs ->
  flat_map (lines_of t info) jobs = flat_map (map (record_line info)) jobs.
Proof.
  induction 1 as [|rs jobs Hrs _ IH]; simpl; [reflexivity|].
  unfold lines_of at 1. now rewrite (filter_passes_all t rs Hrs), IH.
Qed.

Lemma length_flat_map_const {A B : Type} (f : A -> list B) (m : nat)
    (l : list A) :
  Forall (fun x => List.length (f x) = m) l ->
  List.length (flat_map f l) = (List.length l * m)%nat.
Proof.
  induction 1 as [|x l Hx _ IH]; simpl; [reflexivity|].
  rewrite length_app, Hx, IH. reflexivity.
Qed.

(** ** Several threads *)

(** C8. [N] threads each make [M] calls of [_log] at severities at or above
    the minimum level. Whatever the schedule: the threads can always go on
    until all have returned (no deadlock, and no schedule is longer than the
    total number of actions); at every moment the stream holds whole lines
    followed by at most the beginning of one pending line; and when all have
    returned the stream holds exactly the [N * M] lines of the calls, each
    whole, from colour code to reset, in some order. *)
Theorem concurrent_calls_print_whole_lines
    (N M : nat) (t : LogLevel) (info : bool) (out0 : string)
    (jobs : list (list LogRecord)) :
  List.length jobs = N ->
  Forall (fun rs =>
            List.length rs = M /\
            Forall (fun r => (LogLevel_val (severity r) >= LogLevel_val t)%Z) rs)
         jobs ->
  let init := spawn jobs (mkState info t false out0) in
  let all := flat_map (map (record_line info)) jobs in
  List.length all = (N * M)%nat /\
  (exists sched c, run sched init = Some c /\ finished c = true) /\
  forall sched c, run sched init = Some c ->
    (exists done others part rest,
        cout (shared c) = out0 ++ cat done ++ part /\
        Permutation (done ++ others) all /\
        (part = EmptyString \/ In (part ++ rest) others)) /\
    (finished c = false -> exists i c', step i c = Some c') /\
    (List.length sched <= total_cost t info (threads init))%nat /\
    (finished c = true ->
       exists ls, Permutation ls all /\ List.length ls = (N * M)%nat /\
                  cout (shared c) = out0 ++ cat ls /\
                  logMutex (shared c) = false).
Proof.
  intros HN Hjobs init all.
  assert (Hpass : Forall (fun rs =>
             Forall (fun r => (LogLevel_val (severity r) >= LogLevel_val t)%Z) rs)
             jobs).
  { eapply Forall_impl; [|exact Hjobs]. intros rs H. exact (proj2 H). }
  assert (Hlen : List.length all = (N * M)%nat).
  { unfold all. rewrite <- HN. apply length_flat_map_const.
    eapply Forall_impl; [|exact Hjobs]. intros rs H. simpl.
    rewrite length_map. exact (proj1 H). }
  assert (Hinit : pool_inv t info out0 all init).
  { apply pool_inv_spawn. unfold all. symmetry. now apply lines_of_all_pass. }
  split; [exact Hlen|]. split; [exact (pool_completes t info out0 all init Hinit)|].
  intros sched c Hr.
  destruct (run_pool_inv t info out0 all sched init c Hinit Hr) as (Hinv & Hcost).
  split; [exact (pool_observed t info out0 all c Hinv)|].
  split; [exact (pool_progress t info out0 all c Hinv)|].
  split; [lia|].
  intros Hfin.
  destruct (pool_finished t info out0 all c Hinv Hfin) as (ls & HP & Hout & Hm).
  exists ls. split; [exact HP|]. split; [|split; [exact Hout|exact Hm]].
  rewrite (Permutation_length HP). exact Hlen.
Qed.

Lemma concurrent_calls_print_whole_lines_witness :
  let jobs := [[mkRecord WARN "WARN" "33" "a" "f.cpp" 1];
               [mkRecord ERROR "ERROR" "31" "b" "g.cpp" 2]] in
  List.length jobs = 2%nat /\
  Forall (fun rs =>
            List.length rs = 1%nat /\
            Forall (fun r => (LogLevel_val (severity r) >= LogLevel_val INFO)%Z) rs)
         jobs /\
  exists sched c,
    run sched (spawn jobs (mkState false INFO false EmptyString)) = Some c /\
    finished c = true.
Proof.
  intros jobs.
  assert (H1 : List.length jobs = 2%nat) by reflexivity.
  assert (H2 : Forall (fun rs =>
            List.length rs = 1%nat /\
            Forall (fun r => (LogLevel_val (severity r) >= LogLevel_val INFO)%Z) rs)
         jobs).
  { repeat constructor; discriminate. }
  split; [exact H1|]. split; [exact H2|].
  exact (proj1 (proj2 (concurrent_calls_print_whole_lines 2 1 INFO false
                         EmptyString jobs H1 H2))).
Defined.

(** ** Worked examples *)

(** Level [WARN], flag off: [MAYAK_LOG_INFO("hello")] prints nothing and
    [MAYAK_LOG_WARN("low disk")] prints its line in yellow. *)
Example warn_level_run :
  exec (setLogLevel WARN ;; setAdditionalInfo false ;;
        MAYAK_LOG_INFO "hello" "main" 10 ;;
        MAYAK_LOG_WARN "low disk" "main" 11)
       (initial_state EmptyString)
  = Some (tt, mkState false WARN false
                (ESC ++ "[33m[WARN] low disk" ++ NL ++ ESC ++ "[0m")).
Proof. reflexivity. Qed.

(** Level [TRACE], flag on: [MAYAK_LOG_ERROR("boom")] at line 42 of [main]. *)
Example trace_level_run :
  exec (setLogLevel TRACE ;; setAdditionalInfo true ;;
        MAYAK_LOG_ERROR "boom" "main" 42)
       (initial_state EmptyString)
  = Some (tt, mkState true TRACE false
                (ESC ++ "[31m[ERROR] boom at main:42" ++ NL ++ ESC ++ "[0m")).
Proof. reflexivity. Qed.

(** A negative line number is printed with its sign. *)
Example negative_line_run :
  exec (_fatal "x" "f" (-7)) (mkState true FATAL false EmptyString)
  = Some (tt, mkState true FATAL false
                (ESC ++ "[41;97m[FATAL] x at f:-7" ++ NL ++ ESC ++ "[0m")).
Proof. reflexivity. Qed.

(** A thread that calls [_log] while the mutex is owned and never released
    does not return, unless the call is below the level. *)
Example held_mutex_run :
  exec (_info "x" "f" 1) (mkState false INFO true EmptyString) = None /\
  exec (_debug "x" "f" 1) (mkState false INFO true EmptyString)
  = Some (tt, mkState false INFO true EmptyString).
Proof. split; reflexivity. Qed.

(** Two threads, one call each. Both read the level; thread 1 takes the mutex
    first, so thread 0 cannot take it before thread 1 has printed its whole
    line; thread 0 prints after it. *)
Example two_threads_run :
  let jobs := [[mkRecord INFO "INFO" "37" "a" "f" 1];
               [mkRecord ERROR "ERROR" "31" "b" "g" 2]] in
  let init := spawn jobs (initial_state EmptyString) in
  run [0; 1; 1; 0]%nat init = None /\
  option_map (fun c => (finished c, cout (shared c)))
    (run ([0; 1; 1] ++ repeat 1 30 ++ repeat 0 30)%nat%list init)
  = Some (true,
          ESC ++ "[31m[ERROR] b" ++ NL ++ ESC ++ "[0m" ++
          ESC ++ "[37m[INFO] a" ++ NL ++ ESC ++ "[0m").
Proof. split; vm_compute; reflexivity. Qed.

(** Without the mutex the model does interleave: two threads that write
    straight to the stream can mix their characters. *)
Example unguarded_writes_interleave :
  option_map (fun c => cout (shared c))
    (run [0; 1; 0; 1]%nat
       (mkConfig [cout_put "ab"; cout_put "cd"] (initial_state EmptyString)))
  = Some "acbd".
Proof. reflexivity. Qed.

(** * Further properties of the header *)

(** ** One thread, several calls *)

Lemma exec_entry (e : entry_point) (msg file : string) (line : Z)
    (st : LoggerState) :
  logMutex st = false ->
  exec (entry e msg file line) st =
  Some (tt, log_result (spec_severity e) (spec_label e) (color_code e)
              msg file line st).
Proof.
  intros Hm. destruct e;
    unfold entry, _trace, _debug, _info, _warn, _error, _fatal;
    now apply exec_log.
Qed.

Lemma log_result_cout level levelStr color msg file line st :
  cout (log_result level levelStr color msg file line st) =
  cout st ++
  (if (LogLevel_val level <? LogLevel_val (logLevel st))%Z then EmptyString
   else spec_line color levelStr msg
          (if additionalInfo st then spec_site_info file line
           else EmptyString)).
Proof.
  unfold log_result.
  destruct (LogLevel_val level <? LogLevel_val (logLevel st))%Z;
    [now rewrite append_nil_r | reflexivity].
Qed.

Lemma state_eta (st : LoggerState) :
  mkState (additionalInfo st) (logLevel st) (logMutex st) (cout st) = st.
Proof. destruct st; reflexivity. Qed.

Lemma exec_calls (rs : list LogRecord) (st : LoggerState) :
  logMutex st = false ->
  exec (calls rs) st =
  Some (tt, mkState (additionalInfo st) (logLevel st) false
              (cout st ++ cat (lines_of (logLevel st) (additionalInfo st) rs))).
Proof.
  revert st. induction rs as [|r rs IH]; intros st Hm.
  - cbn [calls exec lines_of filter map cat]. rewrite append_nil_r.
    rewrite <- Hm. now rewrite state_eta.
  - cbn [calls]. rewrite exec_bind. unfold log_call.
    rewrite exec_log by exact Hm.
    destruct (log_result_frame (severity r) (label r) (colorCode r)
                (message r) (sourceFile r) (sourceLine r) st Hm)
      as (F1 & F2 & F3).
    rewrite (IH _ F1), F2, F3, log_result_cout.
    unfold lines_of. cbn [filter]. unfold passes at 2, record_line.
    destruct (LogLevel_val (severity r) <? LogLevel_val (logLevel st))%Z;
      cbn [negb map cat]; rewrite append_assoc; reflexivity.
Qed.

(** X1. A thread that makes the calls of [rs] one after the other, starting
    with the mutex free, returns with the mutex free and the configuration
    unchanged, and the stream has grown by the lines of the calls whose
    severity reaches the level, in the order of the calls. *)
Theorem calls_print_lines_in_order (rs : list LogRecord) (st : LoggerState) :
  logMutex st = false ->
  exec (calls rs) st =
  Some (tt, mkState (additionalInfo st) (logLevel st) false
              (cout st ++ cat (lines_of (logLevel st) (additionalInfo st) rs))).
Proof. exact (exec_calls rs st). Qed.

Lemma calls_print_lines_in_order_witness :
  let st := mkState false INFO false "$ " in
  let rs := [mkRecord DEBUG "DEBUG" "36" "skipped" "a.cpp" 3;
             mkRecord WARN "WARN" "33" "one" "a.cpp" 4;
             mkRecord ERROR "ERROR" "31" "two" "a.cpp" 5] in
  logMutex st = false /\
  exec (calls rs) st =
  Some (tt, mkState false INFO false
              ("$ " ++ cat [spec_line "33" "WARN" "one" EmptyString;
                            spec_line "31" "ERROR" "two" EmptyString])).
Proof.
  intros st rs. split; [reflexivity|].
  exact (calls_print_lines_in_order rs st eq_refl).
Defined.

(** X2. A session of setter calls and logging calls, started with the mutex
    free, always returns, with the mutex free. Afterwards the level and the
    flag are the arguments of the last setter calls (or unchanged when there
    is none), and the stream keeps what it held and has grown by the lines of
    the logging calls, each judged by the level and the flag in force when it
    was made. *)
Theorem session_result (ops : list api_call) (st : LoggerState) :
  logMutex st = false ->
  exec (session ops) st =
  Some (tt, mkState (last_flag (additionalInfo st) ops)
              (last_level (logLevel st) ops) false
              (cout st ++ session_text (additionalInfo st) (logLevel st) ops)).
Proof.
  revert st. induction ops as [|a ops IH]; intros st Hm.
  - cbn [session exec last_flag last_level session_text].
    rewrite append_nil_r, <- Hm. now rewrite state_eta.
  - cbn [session]. rewrite exec_bind. destruct a as [level|value|e msg file line].
    + cbn [api_prog setLogLevel exec]. rewrite IH by exact Hm. reflexivity.
    + cbn [api_prog setAdditionalInfo exec]. rewrite IH by exact Hm. reflexivity.
    + cbn [api_prog]. rewrite exec_entry by exact Hm.
      destruct (log_result_frame (spec_severity e) (spec_label e) (color_code e)
                  msg file line st Hm) as (F1 & F2 & F3).
      rewrite (IH _ F1), F2, F3, log_result_cout.
      cbn [last_flag last_level session_text]. rewrite append_assoc.
      reflexivity.
Qed.

Lemma session_result_witness :
  let st := initial_state EmptyString in
  let ops := [CallLog logDebug "early" "m.cpp" 1;
              CallSetLogLevel TRACE;
              CallLog logDebug "late" "m.cpp" 3;
              CallSetAdditionalInfo true;
              CallSetLogLevel FATAL;
              CallLog logError "lost" "m.cpp" 6;
              CallLog logFatal "end" "m.cpp" 7] in
  logMutex st = false /\
  exec (session ops) st =
  Some (tt, mkState true FATAL false
              (spec_line "36" "DEBUG" "late" EmptyString ++
               spec_line "41;97" "FATAL" "end" " at m.cpp:7")).
Proof.
  intros st ops. split; [reflexivity|].
  exact (session_result ops st eq_refl).
Defined.

(** X3. A setter takes effect on the next call, whatever was set before:
    after [setLogLevel v] a call at severity [s] prints iff [s >= v], and
    after [setAdditionalInfo b] a call that prints carries the site
    information iff [b] is [true]. *)
Theorem setters_take_effect
    (v : LogLevel) (b : bool) (s : LogLevel) (levelStr color msg file : string)
    (line : Z) (st : LoggerState) :
  logMutex st = false ->
  (produces_output (setLogLevel v ;; _log s levelStr color msg file line) st
   <-> (LogLevel_val s >= LogLevel_val v)%Z) /\
  ((LogLevel_val s >= LogLevel_val (logLevel st))%Z ->
   exec (setAdditionalInfo b ;; _log s levelStr color msg file line) st =
   Some (tt, mkState b (logLevel st) false
               (cout st ++ spec_line color levelStr msg
                             (if b then spec_site_info file line
                              else EmptyString)))).
Proof.
  intros Hm. split.
  - pose proof (produces_output_log s levelStr color msg file line
                  (mkState (additionalInfo st) v (logMutex st) (cout st)) Hm)
      as P.
    cbn [logLevel] in P. unfold produces_output in *.
    cbn [setLogLevel bind exec]. cbn [cout] in P. rewrite P. lia.
  - intros Hge. cbn [setAdditionalInfo bind exec].
    rewrite exec_log by exact Hm. unfold log_result.
    cbn [logLevel additionalInfo cout].
    destruct (Z.ltb_spec (LogLevel_val s) (LogLevel_val (logLevel st)));
      [lia|reflexivity].
Qed.

Lemma setters_take_effect_witness :
  let st := mkState false FATAL false EmptyString in
  logMutex st = false /\
  (produces_output (setLogLevel DEBUG ;; _log INFO "INFO" "37" "up" "m.cpp" 2) st
   <-> (LogLevel_val INFO >= LogLevel_val DEBUG)%Z).
Proof.
  intros st. split; [reflexivity|].
  exact (proj1 (setters_take_effect DEBUG true INFO "INFO" "37" "up" "m.cpp" 2
                  st eq_refl)).
Defined.

Lemma color_code_line_inj (e e' : entry_point) (m m' x x' : string) :
  spec_line (color_code e) (spec_label e) m x =
  spec_line (color_code e') (spec_label e') m' x' -> e = e'.
Proof.
  unfold spec_line, ESC.
  destruct e, e'; cbn [color_code spec_label append]; intros H;
    try reflexivity; discriminate H.
Qed.

(** X4. The severity can be read off a printed line: if calls of two entry
    points, made in the same state, leave the same text on the stream and the
    first one printed, they are calls of the same entry point, whatever
    their messages and call sites. *)
Theorem printed_line_tells_entry_point
    (e e' : entry_point) (msg msg' file file' : string) (line line' : Z)
    (st st1 st2 : LoggerState) :
  logMutex st = false ->
  exec (entry e msg file line) st = Some (tt, st1) ->
  exec (entry e' msg' file' line') st = Some (tt, st2) ->
  cout st1 <> cout st ->
  cout st1 = cout st2 ->
  e = e'.
Proof.
  intros Hm E1 E2 Hne Heq.
  rewrite exec_entry in E1, E2 by exact Hm.
  injection E1 as <-. injection E2 as <-.
  rewrite !log_result_cout in Heq. rewrite log_result_cout in Hne.
  apply append_inv_head in Heq.
  destruct (LogLevel_val (spec_severity e) <? LogLevel_val (logLevel st))%Z.
  - elim Hne. now rewrite append_nil_r.
  - destruct (LogLevel_val (spec_severity e') <? LogLevel_val (logLevel st))%Z.
    + exfalso. exact (spec_line_nonempty _ _ _ _ Heq).
    + exact (color_code_line_inj _ _ _ _ _ _ Heq).
Qed.

Lemma printed_line_tells_entry_point_witness :
  let st := mkState false TRACE false EmptyString in
  let st1 := mkState false TRACE false (spec_line "33" "WARN" "w" EmptyString) in
  logMutex st = false /\
  exec (entry logWarn "w" "a.cpp" 1) st = Some (tt, st1) /\
  exec (entry logWarn "w" "b.cpp" 2) st = Some (tt, st1) /\
  cout st1 <> cout st /\ logWarn = logWarn.
Proof.
  intros st st1.
  assert (Hn : cout st1 <> cout st) by (apply spec_line_nonempty).
  split; [reflexivity|]. split; [reflexivity|]. split; [reflexivity|].
  split; [exact Hn|].
  exact (printed_line_tells_entry_point logWarn logWarn "w" "w" "a.cpp" "b.cpp"
           1 2 st st1 st1 eq_refl eq_refl eq_refl Hn eq_refl).
Defined.

(** ** Several threads, any severities *)

Lemma update_middle {A : Type} (l1 l2 : list A) (x y : A) :
  update (List.length l1) y (l1 ++ x :: l2)%list = (l1 ++ y :: l2)%list.
Proof. induction l1 as [|z l1 IH]; simpl; [reflexivity|now rewrite IH]. Qed.

Lemma run_cons_step (l1 l2 : list (prog unit)) (p p' : prog unit)
    (st st' : LoggerState) (sched : list nat) :
  tstep p st = Some (p', st') ->
  run (List.length l1 :: sched) (mkConfig (l1 ++ p :: l2) st) =
  run sched (mkConfig (l1 ++ p' :: l2) st').
Proof.
  intros H. cbn [run]. unfold step. cbn [threads shared].
  now rewrite nth_error_middle, H, update_middle.
Qed.

Lemma exec_Some_tstep (p : prog unit) (st st' : LoggerState) (a : unit) :
  exec p st = Some (a, st') ->
  (p = Ret tt /\ st' = st) \/ exists p1 st1, tstep p st = Some (p1, st1).
Proof.
  destruct p as [u|k|k|l k|b k|k|k|s k]; cbn [exec tstep]; intros H;
    try (right; eauto; fail).
  - left. destruct u. injection H as _ <-. auto.
  - right. destruct (logMutex st); [discriminate|eauto].
  - right. destruct (logMutex st); [eauto|discriminate].
  - right. destruct s; eauto.
Qed.

(** A thread that is scheduled alone until it returns does in the pool what
    [exec] says. *)
Lemma solo_run (l1 l2 : list (prog unit)) (p : prog unit)
    (st st' : LoggerState) :
  exec p st = Some (tt, st') ->
  exists sched,
    run sched (mkConfig (l1 ++ p :: l2) st) =
    Some (mkConfig (l1 ++ Ret tt :: l2) st').
Proof.
  remember (cost (logLevel st) (additionalInfo st) p) as n eqn:Hn.
  revert p st Hn. induction n as [|n IH]; intros p st Hn He.
  - destruct (exec_Some_tstep _ _ _ _ He) as [(-> & ->)|(p1 & st1 & Hs)].
    + exists []. reflexivity.
    + rewrite (tstep_cost _ _ _ _ Hs) in Hn. discriminate Hn.
  - destruct (exec_Some_tstep _ _ _ _ He) as [(-> & ->)|(p1 & st1 & Hs)].
    + exists []. reflexivity.
    + rewrite (tstep_cost _ _ _ _ Hs) in Hn. injection Hn as Hn.
      rewrite (exec_tstep _ _ _ _ Hs) in He.
      destruct (IH p1 st1 Hn He) as (sched & Hr).
      exists (List.length l1 :: sched).
      rewrite (run_cons_step l1 l2 p p1 st st1 sched Hs). exact Hr.
Qed.

Lemma crit_under_lock (info : bool) (q p : prog unit) (r : string) :
  crit info q p r -> under_lock p = true.
Proof. intros H. destruct H; reflexivity. Qed.

Lemma tinv_under_lock (t : LogLevel) (info : bool) (ps : list (prog unit))
    (gs : list ghost) :
  Forall2 (tinv t info) ps gs ->
  List.length (filter under_lock ps) = holders gs.
Proof.
  unfold holders.
  induction 1 as [|p g ps gs Hp _ IH]; [reflexivity|].
  cbn [filter].
  destruct Hp as [rs|k r rs Hc|p a r rs Hc].
  - destruct rs as [|r rs]; exact IH.
  - exact IH.
  - rewrite (crit_under_lock _ _ _ _ Hc). cbn. now rewrite IH.
Qed.

(** X5. Threads whose calls are of any severities, run under any schedule:
    while some thread has not returned some thread can move; and when all
    have returned the mutex is free and the stream holds, each whole and in
    some order, the lines of exactly those calls whose severity reaches the
    level. Calls below the level leave nothing, not even part of a line. *)
Theorem concurrent_calls_any_severity
    (t : LogLevel) (info : bool) (out0 : string)
    (jobs : list (list LogRecord)) (sched : list nat) (c : config) :
  run sched (spawn jobs (mkState info t false out0)) = Some c ->
  (finished c = false -> exists i c', step i c = Some c') /\
  (finished c = true ->
     exists ls,
       Permutation ls (flat_map (lines_of t info) jobs) /\
       cout (shared c) = out0 ++ cat ls /\
       logMutex (shared c) = false).
Proof.
  intros Hr.
  assert (Hinit : pool_inv t info out0 (flat_map (lines_of t info) jobs)
                    (spawn jobs (mkState info t false out0)))
    by (now apply pool_inv_spawn).
  destruct (run_pool_inv _ _ _ _ sched _ c Hinit Hr) as (Hinv & _).
  split.
  - exact (pool_progress _ _ _ _ c Hinv).
  - exact (pool_finished _ _ _ _ c Hinv).
Qed.

(** X6. Mutual exclusion on the stream. In every state a pool of logging
    threads can reach, the threads whose next action is a write to the
    stream, the read of the flag or the release of the mutex number one when
    the mutex is owned and none when it is free: no thread writes without
    the mutex, and no two threads are inside [_log]'s critical section
    together. *)
Theorem writers_own_the_mutex
    (t : LogLevel) (info : bool) (out0 : string)
    (jobs : list (list LogRecord)) (sched : list nat) (c : config) :
  run sched (spawn jobs (mkState info t false out0)) = Some c ->
  List.length (filter under_lock (threads c)) =
  (if logMutex (shared c) then 1 else 0)%nat.
Proof.
  intros Hr.
  assert (Hinit : pool_inv t info out0 (flat_map (lines_of t info) jobs)
                    (spawn jobs (mkState info t false out0)))
    by (now apply pool_inv_spawn).
  destruct (run_pool_inv _ _ _ _ sched _ c Hinit Hr)
    as ((gs & done & HF & _ & _ & Hh & _) & _).
  rewrite (tinv_under_lock _ _ _ _ HF). exact Hh.
Qed.

Lemma concurrent_calls_any_severity_witness :
  let jobs := [[mkRecord DEBUG "DEBUG" "36" "d" "a.cpp" 1;
                mkRecord WARN "WARN" "33" "w" "a.cpp" 2];
               [mkRecord ERROR "ERROR" "31" "e" "b.cpp" 3]] in
  let sched := ([0; 1; 1; 0] ++ repeat 1 45 ++ repeat 0 45)%nat%list in
  let c := mkConfig [Ret tt; Ret tt]
             (mkState true INFO false
                (spec_line "31" "ERROR" "e" " at b.cpp:3" ++
                 spec_line "33" "WARN" "w" " at a.cpp:2")) in
  run sched (spawn jobs (mkState true INFO false EmptyString)) = Some c /\
  finished c = true /\
  exists ls,
    Permutation ls (flat_map (lines_of INFO true) jobs) /\
    cout (shared c) = EmptyString ++ cat ls /\
    logMutex (shared c) = false.
Proof.
  intros jobs sched c.
  assert (Hr : run sched (spawn jobs (mkState true INFO false EmptyString))
               = Some c) by (vm_compute; reflexivity).
  split; [exact Hr|]. split; [reflexivity|].
  exact (proj2 (concurrent_calls_any_severity INFO true EmptyString jobs sched c
                  Hr) eq_refl).
Defined.

Lemma writers_own_the_mutex_witness :
  let jobs := [[mkRecord DEBUG "DEBUG" "36" "d" "a.cpp" 1;
                mkRecord WARN "WARN" "33" "w" "a.cpp" 2];
               [mkRecord ERROR "ERROR" "31" "e" "b.cpp" 3]] in
  let sched := ([0; 1; 1; 0] ++ repeat 1 5)%nat%list in
  exists c,
    run sched (spawn jobs (mkState true INFO false EmptyString)) = Some c /\
    logMutex (shared c) = true /\
    List.length (filter under_lock (threads c)) = 1%nat.
Proof.
  intros jobs sched.
  assert (Hm : option_map (fun c => logMutex (shared c))
                 (run sched (spawn jobs (mkState true INFO false EmptyString)))
               = Some true) by (vm_compute; reflexivity).
  destruct (run sched (spawn jobs (mkState true INFO false EmptyString)))
    as [c|] eqn:Hr; [|discriminate Hm].
  injection Hm as Hm. exists c. split; [reflexivity|]. split; [exact Hm|].
  rewrite (writers_own_the_mutex INFO true EmptyString jobs sched c Hr), Hm.
  reflexivity.
Defined.

(** ** Setters that run beside a logging call *)

(** X7. The level check is not covered by the mutex. When [setLogLevel v]
    runs in another thread between the check of a call and its taking the
    mutex, the call prints its whole line although the level may by then be
    above its severity; when the setter runs before the check, the call is
    judged by [v]. Both orders are schedules of the same two threads. *)
Theorem level_check_races_with_setLogLevel
    (r : LogRecord) (t v : LogLevel) (info : bool) (out0 : string) :
  passes t r = true ->
  let init := mkConfig [calls [r]; setLogLevel v] (mkState info t false out0) in
  (exists sched c,
      run (0 :: 1 :: sched)%nat init = Some c /\ finished c = true /\
      logLevel (shared c) = v /\
      cout (shared c) = out0 ++ record_line info r) /\
  (exists sched c,
      run (1 :: sched)%nat init = Some c /\ finished c = true /\
      logLevel (shared c) = v /\
      cout (shared c) =
        out0 ++ (if passes v r then record_line info r else EmptyString)).
Proof.
  intros Hpass init.
  set (st0 := mkState info t false out0).
  set (st1 := mkState info v false out0).
  assert (Hs1 : tstep (setLogLevel v) st0 = Some (Ret tt, st1)) by reflexivity.
  split.
  - destruct (tstep_calls_cons r [] st0) as (p' & Hs0 & Hshape).
    cbn [logLevel st0] in Hshape. rewrite Hpass in Hshape.
    destruct Hshape as (k & -> & Hk).
    assert (He : exec (Lock k) st1 =
                 Some (tt, mkState info v false (out0 ++ record_line info r))).
    { cbn [exec logMutex st1].
      rewrite (exec_crit _ _ _ _ (Hk info)) by reflexivity. reflexivity. }
    destruct (solo_run [] [Ret tt] _ _ _ He) as (sched & Hr).
    exists sched, (mkConfig [Ret tt; Ret tt]
                     (mkState info v false (out0 ++ record_line info r))).
    split; [|repeat split].
    etransitivity;
      [exact (run_cons_step [] [setLogLevel v] (calls [r]) (Lock k) st0 st0
                (1%nat :: sched) Hs0)|].
    etransitivity;
      [exact (run_cons_step [Lock k] [] (setLogLevel v) (Ret tt) st0 st1
                sched Hs1)|].
    exact Hr.
  - assert (He : exec (calls [r]) st1 =
                 Some (tt, mkState info v false
                             (out0 ++ (if passes v r then record_line info r
                                       else EmptyString)))).
    { rewrite exec_calls by reflexivity. cbn [st1 additionalInfo logLevel cout].
      unfold lines_of. cbn [filter]. destruct (passes v r); cbn [map cat];
        [now rewrite append_nil_r | reflexivity]. }
    destruct (solo_run [] [Ret tt] _ _ _ He) as (sched & Hr).
    exists sched, (mkConfig [Ret tt; Ret tt]
                     (mkState info v false
                        (out0 ++ (if passes v r then record_line info r
                                  else EmptyString)))).
    split; [|repeat split].
    etransitivity;
      [exact (run_cons_step [calls [r]] [] (setLogLevel v) (Ret tt) st0 st1
                sched Hs1)|].
    exact Hr.
Qed.

Lemma level_check_races_with_setLogLevel_witness :
  let r := mkRecord INFO "INFO" "37" "still here" "m.cpp" 4 in
  let init := mkConfig [calls [r]; setLogLevel FATAL]
                (mkState false INFO false EmptyString) in
  passes INFO r = true /\
  exists sched c,
    run (0 :: 1 :: sched)%nat init = Some c /\ finished c = true /\
    logLevel (shared c) = FATAL /\
    cout (shared c) = EmptyString ++ record_line false r.
Proof.
  intros r init. split; [reflexivity|].
  exact (proj1 (level_check_races_with_setLogLevel r INFO FATAL false
                  EmptyString eq_refl)).
Defined.

(** X8. The flag is read inside the critical section and the setter does not
    take the mutex: [setAdditionalInfo b] in another thread can move while a
    call owns the mutex, and the line that call then prints follows [b],
    whatever the flag was when the call started. *)
Theorem flag_read_races_with_setAdditionalInfo
    (r : LogRecord) (t : LogLevel) (info b : bool) (out0 : string) :
  passes t r = true ->
  let init := mkConfig [calls [r]; setAdditionalInfo b]
                (mkState info t false out0) in
  exists sched c,
    run (0 :: 0 :: 1 :: sched)%nat init = Some c /\ finished c = true /\
    additionalInfo (shared c) = b /\
    cout (shared c) = out0 ++ record_line b r.
Proof.
  intros Hpass init.
  set (st0 := mkState info t false out0).
  set (st1 := mkState info t true out0).
  set (st2 := mkState b t true out0).
  destruct (tstep_calls_cons r [] st0) as (p' & Hs0 & Hshape).
  cbn [logLevel st0] in Hshape. rewrite Hpass in Hshape.
  destruct Hshape as (k & -> & Hk).
  assert (Hs1 : tstep (Lock k) st0 = Some (k, st1)) by reflexivity.
  assert (Hs2 : tstep (setAdditionalInfo b) st1 = Some (Ret tt, st2))
    by reflexivity.
  assert (He : exec k st2 =
               Some (tt, mkState b t false (out0 ++ record_line b r))).
  { rewrite (exec_crit _ _ _ _ (Hk b)) by reflexivity. reflexivity. }
  destruct (solo_run [] [Ret tt] _ _ _ He) as (sched & Hr).
  exists sched, (mkConfig [Ret tt; Ret tt]
                   (mkState b t false (out0 ++ record_line b r))).
  split; [|repeat split].
  etransitivity;
    [exact (run_cons_step [] [setAdditionalInfo b] (calls [r]) (Lock k) st0 st0
              (0 :: 1 :: sched)%nat Hs0)|].
  etransitivity;
    [exact (run_cons_step [] [setAdditionalInfo b] (Lock k) k st0 st1
              (1 :: sched)%nat Hs1)|].
  etransitivity;
    [exact (run_cons_step [k] [] (setAdditionalInfo b) (Ret tt) st1 st2
              sched Hs2)|].
  exact Hr.
Qed.

Lemma flag_read_races_with_setAdditionalInfo_witness :
  let r := mkRecord WARN "WARN" "33" "w" "m.cpp" 8 in
  let init := mkConfig [calls [r]; setAdditionalInfo true]
                (mkState false INFO false EmptyString) in
  passes INFO r = true /\
  exists sched c,
    run (0 :: 0 :: 1 :: sched)%nat init = Some c /\ finished c = true /\
    additionalInfo (shared c) = true /\
    cout (shared c) = EmptyString ++ record_line true r.
Proof.
  intros r init. split; [reflexivity|].
  exact (flag_read_races_with_setAdditionalInfo r INFO false true EmptyString
           eq_refl).
Defined.

(** ** The mutex and the colour guard on their own *)

(** X9. [logMutex] is not recursive. A call made while the mutex is owned
    and not released (for instance from code that holds it itself) does not
    return, exactly when its severity reaches the level; a call below the
    level returns, since it never touches the mutex. *)
Theorem log_on_owned_mutex
    (level : LogLevel) (levelStr color msg file : string) (line : Z)
    (st : LoggerState) :
  logMutex st = true ->
  (exec (_log level levelStr color msg file line) st = None <->
   (LogLevel_val level >= LogLevel_val (logLevel st))%Z) /\
  (exec (_log level levelStr color msg file line) st = Some (tt, st) <->
   (LogLevel_val level < LogLevel_val (logLevel st))%Z).
Proof.
  intros Hm. rewrite <- exec_bind_ret.
  destruct (tstep_log_bind level levelStr color msg file line (Ret tt) st)
    as (p' & Hs & Hshape).
  rewrite (exec_tstep _ _ _ _ Hs).
  destruct (Z.ltb_spec (LogLevel_val level) (LogLevel_val (logLevel st)))
    as [Hlt|Hge].
  - subst p'. cbn [exec]. split; split; intros H;
      try discriminate H; try lia; reflexivity.
  - destruct Hshape as (k & -> & _). cbn [exec]. rewrite Hm.
    split; split; intros H; try discriminate H; try lia; reflexivity.
Qed.

Lemma log_on_owned_mutex_witness :
  let st := mkState false INFO true "held" in
  logMutex st = true /\
  exec (_log ERROR "ERROR" "31" "stuck" "m.cpp" 5) st = None.
Proof.
  intros st. split; [reflexivity|].
  apply (proj1 (log_on_owned_mutex ERROR "ERROR" "31" "stuck" "m.cpp" 5 st
                  eq_refl)).
  discriminate.
Defined.

(** X10. The guard [Color] around any code that returns: the stream gets the
    opening sequence of the colour, then whatever the code writes, then the
    reset sequence; the guard touches nothing but the stream, and works with
    or without the mutex. *)
Theorem Color_guard_brackets
    (color : string) (body : prog unit) (st st' : LoggerState) :
  exec body (mkState (additionalInfo st) (logLevel st) (logMutex st)
               (cout st ++ ESC ++ "[" ++ color ++ "m")) = Some (tt, st') ->
  exec (Color_ctor color ;; body ;; Color_dtor) st =
  Some (tt, mkState (additionalInfo st') (logLevel st') (logMutex st')
              (cout st' ++ ESC ++ "[0m")).
Proof.
  intros H. unfold Color_ctor, Color_dtor, cout_put.
  cbn [bind exec additionalInfo logLevel logMutex cout].
  rewrite !append_assoc, exec_bind, H. reflexivity.
Qed.

Lemma Color_guard_brackets_witness :
  exec (Color_ctor "32" ;; cout_put "ok" ;; Color_dtor)
       (mkState false INFO false "> ")
  = Some (tt, mkState false INFO false
                (("> " ++ ESC ++ "[" ++ "32" ++ "m") ++ "ok" ++ ESC ++ "[0m")).
Proof.
  exact (Color_guard_brackets "32" (cout_put "ok")
           (mkState false INFO false "> ")
           (mkState false INFO false (("> " ++ ESC ++ "[" ++ "32" ++ "m") ++ "ok"))
           eq_refl).
Defined.

(** ** The order of the lines of each thread *)

(** One action of a thread, seen on its account: it stays outside the
    critical section, or enters it, or moves on inside it (printing a piece
    [d] of its line, possibly empty), or leaves it with its line complete. *)
Lemma tinv_tstep (t : LogLevel) (info : bool) (p p' : prog unit) (g : ghost)
    (st st' : LoggerState) :
  tinv t info p g -> logLevel st = t -> additionalInfo st = info ->
  tstep p st = Some (p', st') ->
  exists g', tinv t info p' g' /\
    logLevel st' = t /\ additionalInfo st' = info /\
    ((inside g = None /\ inside g' = None /\ owed g' = owed g /\ st' = st) \/
     (inside g = None /\ inside g' = Some EmptyString /\ owed g' = owed g /\
      logMutex st = false /\ logMutex st' = true /\ cout st' = cout st) \/
     (exists a d, inside g = Some a /\ inside g' = Some (a ++ d) /\
        owed g' = owed g /\ logMutex st' = logMutex st /\
        cout st' = cout st ++ d) \/
     (exists a, inside g = Some a /\ inside g' = None /\
        owed g = a :: owed g' /\ logMutex st = true /\ logMutex st' = false /\
        cout st' = cout st)).
Proof.
  intros Hg Ht Hi Hp. destruct Hg as [rs|k r rs Hc|p a r rs Hc].
  - destruct rs as [|r rs]; [discriminate Hp|].
    destruct (tstep_calls_cons r rs st) as (p1 & Hp1 & Hshape).
    rewrite Hp in Hp1. injection Hp1 as <- ->. rewrite Ht in Hshape.
    unfold lines_of. cbn [filter].
    destruct (passes t r).
    + destruct Hshape as (k & -> & Hk).
      exists (mkGhost None (record_line info r :: lines_of t info rs)).
      split; [apply tinv_gated, Hk|]. split; [exact Ht|]. split; [exact Hi|].
      left. repeat split; reflexivity.
    + subst p'. exists (mkGhost None (lines_of t info rs)).
      split; [apply tinv_idle|]. split; [exact Ht|]. split; [exact Hi|].
      left. repeat split; reflexivity.
  - cbn [tstep] in Hp. destruct (logMutex st) eqn:Hm; [discriminate|].
    injection Hp as <- <-.
    exists (mkGhost (Some EmptyString)
                    ((EmptyString ++ r)%string :: lines_of t info rs)).
    split; [exact (tinv_crit t info k EmptyString r rs Hc)|].
    split; [exact Ht|]. split; [exact Hi|].
    right; left. repeat split; try reflexivity; assumption.
  - destruct (crit_tstep _ _ _ _ _ _ _ Hc Hi Hp)
      as [(-> & -> & Hm & ->)|[(ch & r' & -> & Hc' & ->)|(Hc' & ->)]].
    + exists (mkGhost None (lines_of t info rs)).
      split; [apply tinv_idle|]. split; [exact Ht|]. split; [exact Hi|].
      right; right; right. exists a. cbn. rewrite append_nil_r.
      repeat split; try reflexivity; assumption.
    + exists (mkGhost (Some (a ++ String ch EmptyString)%string)
                (((a ++ String ch EmptyString) ++ r')%string
                   :: lines_of t info rs)).
      split; [apply tinv_crit, Hc'|]. split; [exact Ht|]. split; [exact Hi|].
      right; right; left. exists a, (String ch EmptyString). cbn.
      rewrite append_assoc. repeat split; reflexivity.
    + exists (mkGhost (Some a) ((a ++ r)%string :: lines_of t info rs)).
      split; [apply tinv_crit, Hc'|]. split; [exact Ht|]. split; [exact Hi|].
      right; right; left. exists a, EmptyString. cbn.
      rewrite !append_nil_r. repeat split; reflexivity.
Qed.

Section Ordered.

Variables (t : LogLevel) (info : bool) (out0 : string)
          (jobs : list (list LogRecord)).

Lemma ordered_inv_spawn :
  ordered_inv t info out0 jobs (spawn jobs (mkState info t false out0)).
Proof.
  exists (map (fun rs => ([], mkGhost None (lines_of t info rs))) jobs), [].
  cbn [spawn threads shared logLevel additionalInfo logMutex cout cat].
  split; [|split; [|split; [|split; [|split; [|split]]]]]; try reflexivity.
  - induction jobs as [|rs js IH]; cbn [map]; constructor;
      [apply tinv_idle|exact IH].
  - induction jobs as [|rs js IH]; cbn [map]; constructor;
      [reflexivity|exact IH].
  - replace (map fst _) with (@repeat (list string) [] (List.length jobs));
      [apply merged_nil|].
    induction jobs as [|rs js IH]; cbn; [reflexivity|now rewrite IH].
  - induction jobs as [|rs js IH]; [reflexivity|exact IH].
  - replace (partial _) with EmptyString; [now rewrite append_nil_r|].
    unfold partial. induction jobs as [|rs js IH]; cbn; auto.
Qed.

Lemma step_ordered_inv (i : nat) (c c' : config) :
  ordered_inv t info out0 jobs c -> step i c = Some c' ->
  ordered_inv t info out0 jobs c'.
Proof.
  intros (hs & done & HF & HJ & HM & Ht & Hi & Hh & Hout) Hs.
  unfold step in Hs.
  destruct (nth_error (threads c) i) as [p|] eqn:Hn; [|discriminate].
  destruct (tstep p (shared c)) as [[p' st']|] eqn:Hp; [|discriminate].
  injection Hs as <-.
  destruct (nth_error_update_split _ _ _ Hn) as (l1 & l2 & Hl & Hu).
  rewrite Hl in HF. apply Forall2_app_inv_l in HF.
  destruct HF as (h1 & hr & HF1 & HF2 & ->).
  inversion HF2 as [|p0 h l2' h2 Hg HF3 E1 E2]. subst p0 l2' hr. clear HF2.
  apply Forall2_app_inv_l in HJ.
  destruct HJ as (j1 & jr & HJ1 & HJ2 & Hjobs).
  inversion HJ2 as [|h0 rs h2' j2 HJh HJ3 E1 E2]. subst h0 h2' jr. clear HJ2.
  destruct h as [d g]. cbn [fst snd] in Hg, HJh.
  destruct (tinv_tstep t info p p' g (shared c) st' Hg Ht Hi Hp)
    as (g' & Hg' & Ht' & Hi' & Hcase).
  rewrite map_app in Hh, Hout, HM. cbn [map fst snd] in Hh, Hout, HM.
  rewrite holders_middle in Hh. rewrite partial_middle in Hout.
  unfold is_inside in Hh. unfold printed in Hout.
  assert (HT : forall d', Forall2 (fun p h => tinv t info p (snd h))
                 (update i p' (threads c)) (h1 ++ (d', g') :: h2)).
  { intros d'. rewrite Hu. apply Forall2_app; [exact HF1|].
    constructor; [exact Hg'|exact HF3]. }
  assert (HJ' : forall d', (d' ++ owed g')%list = lines_of t info rs ->
            Forall2 (fun h rs => (fst h ++ owed (snd h))%list = lines_of t info rs)
              (h1 ++ (d', g') :: h2) jobs).
  { intros d' E. rewrite Hjobs. apply Forall2_app; [exact HJ1|].
    constructor; [exact E|exact HJ3]. }
  destruct Hcase as [(Hin & Hin' & Ho & ->)
                    |[(Hin & Hin' & Ho & Hm & Hm' & Hc)
                    |[(a & d0 & Hin & Hin' & Ho & Hm' & Hc)
                    |(a & Hin & Hin' & Ho & Hm & Hm' & Hc)]]];
    rewrite Hin in Hh, Hout.
  - exists (h1 ++ (d, g') :: h2)%list, done. cbn [threads shared].
    split; [apply HT|]. split; [apply HJ'; now rewrite Ho|].
    rewrite map_app. cbn [map fst snd]. split; [exact HM|].
    split; [exact Ht|]. split; [exact Hi|].
    rewrite map_app. cbn [map fst snd].
    rewrite holders_middle, partial_middle. unfold is_inside, printed.
    rewrite Hin'. split; [exact Hh|exact Hout].
  - exists (h1 ++ (d, g') :: h2)%list, done. cbn [threads shared].
    split; [apply HT|]. split; [apply HJ'; now rewrite Ho|].
    rewrite map_app. cbn [map fst snd]. split; [exact HM|].
    split; [exact Ht'|]. split; [exact Hi'|].
    rewrite map_app. cbn [map fst snd].
    rewrite holders_middle, partial_middle. unfold is_inside, printed.
    rewrite Hin', Hm', Hc. rewrite Hm in Hh. split; [lia|exact Hout].
  - assert (Hmt : logMutex (shared c) = true).
    { destruct (logMutex (shared c)); [reflexivity|lia]. }
    rewrite Hmt in Hh.
    assert (H1 : holders (map snd h1) = 0%nat) by lia.
    assert (H2 : holders (map snd h2) = 0%nat) by lia.
    rewrite (holders_none_partial _ H1), (holders_none_partial _ H2) in Hout.
    exists (h1 ++ (d, g') :: h2)%list, done. cbn [threads shared].
    split; [apply HT|]. split; [apply HJ'; now rewrite Ho|].
    rewrite map_app. cbn [map fst snd]. split; [exact HM|].
    split; [exact Ht'|]. split; [exact Hi'|].
    rewrite map_app. cbn [map fst snd].
    rewrite holders_middle, partial_middle. unfold is_inside, printed.
    rewrite Hin', Hm', Hmt, Hc, Hout.
    rewrite (holders_none_partial _ H1), (holders_none_partial _ H2).
    split; [lia|]. cbn [append]. rewrite ?append_nil_r, ?append_assoc.
    reflexivity.
  - rewrite Hm in Hh.
    assert (H1 : holders (map snd h1) = 0%nat) by lia.
    assert (H2 : holders (map snd h2) = 0%nat) by lia.
    rewrite (holders_none_partial _ H1), (holders_none_partial _ H2) in Hout.
    exists (h1 ++ ((d ++ [a])%list, g') :: h2)%list, (done ++ [a])%list.
    cbn [threads shared].
    split; [apply HT|].
    split; [apply HJ'; rewrite <- app_assoc; cbn [app]; now rewrite <- Ho|].
    rewrite map_app. cbn [map fst snd].
    split; [apply merged_snoc; exact HM|].
    split; [exact Ht'|]. split; [exact Hi'|].
    rewrite map_app. cbn [map fst snd].
    rewrite holders_middle, partial_middle. unfold is_inside, printed.
    rewrite Hin', Hm', Hc, Hout.
    rewrite (holders_none_partial _ H1), (holders_none_partial _ H2).
    split; [lia|]. rewrite cat_app. cbn [cat append].
    rewrite ?append_nil_r, ?append_assoc. reflexivity.
Qed.

Lemma run_ordered_inv (sched : list nat) (c c' : config) :
  ordered_inv t info out0 jobs c -> run sched c = Some c' ->
  ordered_inv t info out0 jobs c'.
Proof.
  revert c. induction sched as [|i sched IH]; intros c Hinv Hr; cbn [run] in Hr.
  - now injection Hr as <-.
  - destruct (step i c) as [c1|] eqn:Hs; [|discriminate].
    exact (IH c1 (step_ordered_inv i c c1 Hinv Hs) Hr).
Qed.

End Ordered.

Lemma merged_single {A : Type} (ls : list (list A)) (out : list A) :
  merged ls out -> forall l, ls = [l] -> out = l.
Proof.
  induction 1 as [n|l1 l2 xs out x _ IH]; intros l E.
  - destruct n as [|[|n]]; cbn in E; try discriminate E.
    now injection E as <-.
  - destruct l1 as [|y l1]; cbn in E.
    + injection E as <- ->. now rewrite (IH xs eq_refl).
    + injection E as _ E. now destruct l1.
Qed.

Lemma ordered_finished_accounts (t : LogLevel) (info : bool)
    (ps : list (prog unit)) (hs : list (list string * ghost))
    (jobs : list (list LogRecord)) :
  Forall2 (fun p h => tinv t info p (snd h)) ps hs ->
  Forall2 (fun h rs => (fst h ++ owed (snd h))%list = lines_of t info rs)
          hs jobs ->
  forallb is_Ret ps = true ->
  map fst hs = map (lines_of t info) jobs /\ holders (map snd hs) = 0%nat.
Proof.
  intros HF. revert jobs.
  induction HF as [|p h ps hs Hp _ IH]; intros jobs HJ Hfin.
  - inversion HJ. split; reflexivity.
  - inversion HJ as [|h0 rs hs0 js Hh HJ' E1 E2]. subst h0 hs0 jobs.
    cbn [forallb] in Hfin. apply andb_prop in Hfin. destruct Hfin as (Hr & Hrs).
    destruct (tinv_finished t info p (snd h) Hp Hr) as (Hin & How).
    destruct (IH js HJ' Hrs) as (E & H0).
    rewrite How, app_nil_r in Hh. cbn [map]. rewrite Hh, E. split; [reflexivity|].
    unfold holders in *. cbn [filter]. unfold is_inside at 1. now rewrite Hin.
Qed.

(** X11. The lines of one thread keep the order of its calls. When all the
    threads of a pool have returned, the whole lines on the stream are an
    interleaving of the threads' own sequences of lines, each sequence in
    the order the thread made its calls; with a single thread the stream
    holds its lines in call order. *)
Theorem thread_lines_keep_call_order
    (t : LogLevel) (info : bool) (out0 : string)
    (jobs : list (list LogRecord)) (sched : list nat) (c : config) :
  run sched (spawn jobs (mkState info t false out0)) = Some c ->
  finished c = true ->
  (exists done,
      cout (shared c) = out0 ++ cat done /\
      merged (map (lines_of t info) jobs) done) /\
  (forall rs, jobs = [rs] ->
      cout (shared c) = out0 ++ cat (lines_of t info rs)).
Proof.
  intros Hr Hfin.
  pose proof (run_ordered_inv t info out0 jobs sched _ c
                (ordered_inv_spawn t info out0 jobs) Hr)
    as (hs & done & HF & HJ & HM & _ & _ & _ & Hout).
  destruct (ordered_finished_accounts t info _ _ _ HF HJ Hfin) as (E & H0).
  rewrite (holders_none_partial _ H0), append_nil_r in Hout.
  rewrite E in HM.
  split.
  - exists done. split; [exact Hout|exact HM].
  - intros rs ->. cbn [map] in HM.
    now rewrite <- (merged_single _ _ HM _ eq_refl).
Qed.

Lemma thread_lines_keep_call_order_witness :
  let jobs := [[mkRecord DEBUG "DEBUG" "36" "d" "a.cpp" 1;
                mkRecord WARN "WARN" "33" "w" "a.cpp" 2];
               [mkRecord ERROR "ERROR" "31" "e" "b.cpp" 3]] in
  let sched := ([0; 1; 1; 0] ++ repeat 1 45 ++ repeat 0 45)%nat%list in
  let c := mkConfig [Ret tt; Ret tt]
             (mkState true INFO false
                (spec_line "31" "ERROR" "e" " at b.cpp:3" ++
                 spec_line "33" "WARN" "w" " at a.cpp:2")) in
  run sched (spawn jobs (mkState true INFO false EmptyString)) = Some c /\
  finished c = true /\
  exists done,
    cout (shared c) = EmptyString ++ cat done /\
    merged (map (lines_of INFO true) jobs) done.
Proof.
  intros jobs sched c.
  assert (Hr : run sched (spawn jobs (mkState true INFO false EmptyString))
               = Some c) by (vm_compute; reflexivity).
  split; [exact Hr|]. split; [reflexivity|].
  exact (proj1 (thread_lines_keep_call_order INFO true EmptyString jobs sched c
                  Hr eq_refl)).
Defined.

(** An interleaving keeps the order inside each list: a single list has no
    interleaving but itself. *)
Example merged_keeps_order :
  merged [[1; 2]; [3]]%nat [1; 3; 2]%nat /\ ~ merged [[1; 2]]%nat [2; 1]%nat.
Proof.
  split.
  - apply (merged_snoc [] [[3%nat]] [1%nat] [1; 3]%nat 2%nat).
    apply (merged_snoc [[1%nat]] [] [] [1%nat] 3%nat).
    apply (merged_snoc [] [[]] [] [] 1%nat).
    exact (merged_nil 2).
  - intros H. discriminate (merged_single _ _ H _ eq_refl).
Qed.
